(** * MakakaArchive: the container format of [makakatool.cpp]

    A shallow embedding of the archive writer ([createArchive]), the two
    readers ([extractArchive], [listArchiveContents]) and the codec wrappers
    ([compressWithLZMA], [compressWithZSTD], [decompressZSTD]), followed by
    the properties of the format that the specification states.

    Conventions of the embedding.
    - Integers of the program are [Z]; a [w]-byte object is stored and
      loaded little-endian ([le_split], [le_combine]) and conversions to a
      narrower type are written as [mod 2 ^ width].
    - [std::vector<uint8_t>] is [list byte]; [std::string] is [string], read
      and written through its bytes.
    - The file system and the liblzma / libzstd entry points are external:
      they are parameters ([filesystem], [lzma_api], [zstd_api]).
    - A function that can throw, or read an object that was never written,
      has an [outcome]: [Ret], [Throw] or [Undef].  Allocation is assumed to
      succeed below [vector_max_size].
    - What [std::filesystem] and an output stream do with a destination is
      the file system's answer, given the directories and files the run has
      made so far ([fs_create_directories], [fs_ofstream]). *)

From Stdlib Require Import ZArith List String Ascii Lia Bool.
From coqutil Require Import Byte Word.LittleEndianList.
Import ListNotations.
Local Open Scope string_scope.
Local Open Scope list_scope.
Local Open Scope Z_scope.

(** ** Exceptions and outcomes *)

Inductive exn : Type :=
| runtime_error (what : string)
| length_error (what : string)
| filesystem_error (what : string).

(** A pure computation that may throw. *)
Definition result (A : Type) : Type := (exn + A)%type.

Inductive outcome (S A : Type) : Type :=
| Ret (a : A) (s : S)
| Throw (e : exn) (s : S)
| Undef.
Arguments Ret {S A} a s.
Arguments Throw {S A} e s.
Arguments Undef {S A}.

Module Proc.
Definition M (S A : Type) : Type := S -> outcome S A.

Definition ret {S A} (a : A) : M S A := fun s => Ret a s.

Definition bind {S A B} (c : M S A) (k : A -> M S B) : M S B :=
  fun s =>
    match c s with
    | Ret a s' => k a s'
    | Throw e s' => Throw e s'
    | Undef => Undef
    end.

Definition throw {S A} (e : exn) : M S A := fun s => Throw e s.

Definition undef {S A} : M S A := fun _ => Undef.

(** Reading a scalar whose object was not (wholly) written. *)
Definition use {S A} (v : option A) : M S A :=
  match v with
  | Some a => ret a
  | None => undef
  end.

Definition lift {S A} (r : result A) : M S A :=
  match r with
  | inl e => throw e
  | inr a => ret a
  end.

Definition when {S} (b : bool) (c : M S unit) : M S unit :=
  if b then c else ret tt.

(** [for (i = 0; i < n; ++i) body] for a body that does not mention [i]. *)
Fixpoint times {S} (n : nat) (body : M S unit) : M S unit :=
  match n with
  | O => ret tt
  | S n' => bind body (fun _ => times n' body)
  end.

(** [for (const auto& x : xs) body(x)]. *)
Fixpoint for_each {S A} (xs : list A) (body : A -> M S unit) : M S unit :=
  match xs with
  | [] => ret tt
  | x :: xs' => bind (body x) (fun _ => for_each xs' body)
  end.
End Proc.
Import Proc.

Notation "x <- c ;; k" := (bind c (fun x => k))
  (at level 61, c at next level, right associativity).
Notation "c ;; k" := (bind c (fun _ => k))
  (at level 61, right associativity).

(** ** Constants of the format (lines 12-19) *)

Definition MAKAKA_SIGNATURE : Z := 0x4D4B4B41.
Definition MAKAKA_VERSION : Z := 0x0100.

Inductive CompressionType : Type :=
| COMPRESS_NONE
| COMPRESS_LZMA
| COMPRESS_ZSTD.

Definition enum_value (c : CompressionType) : Z :=
  match c with
  | COMPRESS_NONE => 0
  | COMPRESS_LZMA => 1
  | COMPRESS_ZSTD => 2
  end.

(** ** Byte vectors *)

(** [std::vector<uint8_t>::max_size()] on an LP64 target. *)
Definition vector_max_size : Z := 2 ^ 63 - 1.

Definition size (v : list byte) : Z := Z.of_nat (List.length v).

(** [std::vector<uint8_t> v(n)]: [n] zero bytes, or [std::length_error].
    An allocation that fails ([std::bad_alloc]) is outside the model: the
    statements below that say which exceptions a run raises are about the
    format error only. *)
Definition new_vector (n : Z) : result (list byte) :=
  if vector_max_size <? n
  then inl (length_error "cannot create std::vector larger than max_size()")
  else inr (repeat Byte.x00 (Z.to_nat n)).

(** [v.resize(n)]. *)
Definition resize (n : Z) (v : list byte) : list byte :=
  firstn (Z.to_nat n) v ++ repeat Byte.x00 (Z.to_nat n - List.length v).

(** A callee stores [written] at the start of the caller's buffer [buf]; it
    cannot store past the end of the buffer. *)
Definition store (written buf : list byte) : list byte :=
  firstn (List.length buf) written ++ skipn (List.length written) buf.

(** ** The compression libraries *)

(** [lzma_ret] of lzma.h. *)
Inductive lzma_ret : Type :=
| LZMA_OK
| LZMA_STREAM_END
| LZMA_NO_CHECK
| LZMA_UNSUPPORTED_CHECK
| LZMA_GET_CHECK
| LZMA_MEM_ERROR
| LZMA_MEMLIMIT_ERROR
| LZMA_FORMAT_ERROR
| LZMA_OPTIONS_ERROR
| LZMA_DATA_ERROR
| LZMA_BUF_ERROR
| LZMA_PROG_ERROR.

Definition lzma_ret_is_ok (r : lzma_ret) : bool :=
  match r with
  | LZMA_OK => true
  | _ => false
  end.

Definition LZMA_PRESET_EXTREME : Z := 2 ^ 31.
Definition LZMA_CHECK_CRC64 : Z := 4.

(** liblzma as the program calls it.  [lzma_code input avail_out] is one
    call with [LZMA_FINISH] on a stream whose input is [input] and whose
    output buffer has [avail_out] bytes: it gives the returned status and the
    bytes stored at [next_out]; [total_out] is their number. *)
Record lzma_api : Type := {
  lzma_easy_encoder : Z -> Z -> lzma_ret;
  lzma_code : list byte -> Z -> lzma_ret * list byte
}.

(** libzstd as the program calls it.  The one-shot functions give the
    returned [size_t] and the bytes stored at [dst]. *)
Record zstd_api : Type := {
  ZSTD_compressBound : Z -> Z;
  ZSTD_maxCLevel : Z;
  ZSTD_compress : Z -> list byte -> Z -> Z * list byte;
  ZSTD_decompress : Z -> list byte -> Z * list byte;
  ZSTD_isError : Z -> bool;
  ZSTD_getErrorName : Z -> string
}.

Section Codecs.
Variable lz : lzma_api.
Variable zs : zstd_api.

(** Lines 21-39.  [input.size() * 1.5] is computed in [double] and
    converted back to [size_t]: the integer part of [3 * n / 2] (exact for
    every size below [2 ^ 52]).  The status of [lzma_code] is dropped. *)
Definition compressWithLZMA (input : list byte) : result (list byte) :=
  if lzma_ret_is_ok
       (lzma_easy_encoder lz (Z.lor 9 LZMA_PRESET_EXTREME) LZMA_CHECK_CRC64)
  then
    match new_vector (3 * size input / 2) with
    | inl e => inl e
    | inr output =>
        let '(_, produced) := lzma_code lz input (size output) in
        let total_out := Z.min (size produced) (size output) in
        let output := store produced output in
        inr (resize total_out output)
    end
  else inl (runtime_error "LZMA compression initialization failed").

(** Lines 41-57. *)
Definition compressWithZSTD (input : list byte) : result (list byte) :=
  let max_size := ZSTD_compressBound zs (size input) in
  match new_vector max_size with
  | inl e => inl e
  | inr output =>
      let '(compressed_size, produced) :=
        ZSTD_compress zs (size output) input (ZSTD_maxCLevel zs) in
      let output := store produced output in
      if ZSTD_isError zs compressed_size
      then inl (runtime_error
                  ("ZSTD compression failed: "
                     ++ ZSTD_getErrorName zs compressed_size)%string)
      else inr (resize compressed_size output)
  end.

(** Lines 59-71.  The buffer keeps its [original_size] bytes whatever
    count the library returns. *)
Definition decompressZSTD (input : list byte) (original_size : Z)
  : result (list byte) :=
  match new_vector original_size with
  | inl e => inl e
  | inr output =>
      let '(result, produced) := ZSTD_decompress zs (size output) input in
      let output := store produced output in
      if ZSTD_isError zs result
      then inl (runtime_error
                  ("ZSTD decompression failed: "
                     ++ ZSTD_getErrorName zs result)%string)
      else inr output
  end.

(** The writer's choice of codec (lines 97-107). *)
Definition compress_switch (compression : CompressionType)
           (file_data : list byte) : result (list byte) :=
  match compression with
  | COMPRESS_LZMA => compressWithLZMA file_data
  | COMPRESS_ZSTD => compressWithZSTD file_data
  | COMPRESS_NONE => inr file_data
  end.

(** The extractor's choice of codec (lines 168-173); [compression] is the
    16-bit field of the header. *)
Definition decompress_switch (compression : Z)
           (compressed_data : list byte) (original_size : Z)
  : result (list byte) :=
  if compression =? enum_value COMPRESS_ZSTD
  then decompressZSTD compressed_data original_size
  else inr compressed_data.
End Codecs.

(** ** Streams, the file system and the observable effects *)

(** What a run shows to its environment, one constructor per statement of
    the source that prints, creates directories or writes a file.
    [Directories_created output_dir file_name] is a call of
    [fs::create_directories] on the parent of [output_dir / file_name] that
    returned; [File_written output_dir file_name bytes] is an output stream
    on [output_dir / file_name] that opened, with the bytes the file holds
    when the stream is closed. *)
Inductive event : Type :=
| Cerr_skipping (file_path : string)
| Cout_version (major minor : Z)
| Cout_compression (label : string)
| Cout_files (file_count : Z)
| Cout_extracting (file_name : string) (original_size compressed_size : Z)
| Cout_archive (archive_path : string)
| Cout_entry (file_name : string) (original_size compressed_size : Z)
| Directories_created (output_dir file_name : string)
| File_written (output_dir file_name : string) (file_data : list byte).

(** The effects that change the file system. *)
Definition on_disk (ev : event) : bool :=
  match ev with
  | Directories_created _ _ | File_written _ _ _ => true
  | _ => false
  end.

(** The external file system.  For the inputs: what opening a path for
    reading yields, and whether a path can be opened for writing.  For the
    extractor's outputs, after the directories and files [done] that the run
    has made so far:
    - [fs_create_directories done output_dir file_name] is the call of
      [fs::create_directories] on the parent of [output_dir / file_name]:
      the message of the [fs::filesystem_error] it throws, or none when it
      returns;
    - [fs_ofstream done output_dir file_name bytes] is an output stream
      opened on [output_dir / file_name] and given [bytes]: what the file
      holds when the stream is closed, or none when the stream did not
      open. *)
Record filesystem : Type := {
  fs_read : string -> option (list byte);
  fs_create : string -> bool;
  fs_create_directories : list event -> string -> string -> option string;
  fs_ofstream : list event -> string -> string -> list byte -> option (list byte)
}.

(** [std::ifstream] over a file: the file's bytes, the get position and
    [failbit]. *)
Record istream : Type := {
  data : list byte;
  pos : Z;
  failbit : bool
}.

(** [std::ifstream in(path, std::ios::binary)]. *)
Definition ifstream_open (fsys : filesystem) (path : string) : istream :=
  match fs_read fsys path with
  | Some bytes => {| data := bytes; pos := 0; failbit := false |}
  | None => {| data := []; pos := 0; failbit := true |}
  end.

(** State of a reader: the archive stream [in] and the effects so far. *)
Record reader : Type := {
  ins : istream;
  shown : list event
}.

(** State of the writer: the bytes put on [out] and the effects so far. *)
Record writer : Type := {
  out : list byte;
  warned : list event
}.

(** [in.read(buf, n)] into a buffer holding [buf]: nothing happens on a
    failed stream; otherwise the bytes available, at most [n], replace the
    start of the buffer, and fewer than [n] of them set [failbit]. *)
Definition istream_read (buf : list byte) (n : Z) : M reader (list byte) :=
  fun s =>
    let i := ins s in
    if failbit i then Ret buf s
    else
      let got := firstn (Z.to_nat n) (skipn (Z.to_nat (pos i)) (data i)) in
      Ret (store got buf)
          {| ins := {| data := data i;
                       pos := pos i + size got;
                       failbit := size got <? n |};
             shown := shown s |}.

(** [T x; in.read(reinterpret_cast<char*>(&x), w)] for an unsigned [w]-byte
    [T]: [x] has a value only when all its [w] bytes were read. *)
Definition read_scalar (w : nat) : M reader (option Z) :=
  fun s =>
    let i := ins s in
    if failbit i then Ret None s
    else
      let got := firstn w (skipn (Z.to_nat (pos i)) (data i)) in
      Ret (if (List.length got =? w)%nat then Some (le_combine got) else None)
          {| ins := {| data := data i;
                       pos := pos i + size got;
                       failbit := size got <? Z.of_nat w |};
             shown := shown s |}.

(** A [uint64_t] converted to [std::streamoff]. *)
Definition to_streamoff (n : Z) : Z :=
  if n <? 2 ^ 63 then n else n - 2 ^ 64.

(** [in.seekg(off, std::ios::cur)]: nothing happens on a failed stream; a
    position before the start, or one that [off_t] cannot hold, sets
    [failbit]; a position past the end of the file is accepted. *)
Definition istream_seekg_cur (off : Z) : M reader unit :=
  fun s =>
    let i := ins s in
    if failbit i then Ret tt s
    else
      let target := pos i + to_streamoff off in
      if (0 <=? target) && (target <? 2 ^ 63)
      then Ret tt {| ins := {| data := data i; pos := target; failbit := false |};
                     shown := shown s |}
      else Ret tt {| ins := {| data := data i; pos := pos i; failbit := true |};
                     shown := shown s |}.

Definition show (e : event) : M reader unit :=
  fun s => Ret tt {| ins := ins s; shown := shown s ++ [e] |}.

(** The directories and files the run has made so far. *)
Definition made : M reader (list event) :=
  fun s => Ret (filter on_disk (shown s)) s.

(** [out.write(p, n)] with the [n] bytes at [p]. *)
Definition ostream_write (bytes : list byte) : M writer unit :=
  fun s => Ret tt {| out := out s ++ bytes; warned := warned s |}.

Definition warn (e : event) : M writer unit :=
  fun s => Ret tt {| out := out s; warned := warned s ++ [e] |}.

(** The name printed for a codec field (lines 138-142 and 200-204). *)
Definition compression_label (compression : Z) : string :=
  if compression =? enum_value COMPRESS_LZMA then "LZMA"
  else if compression =? enum_value COMPRESS_ZSTD then "ZSTD"
  else "None".

(** ** The three operations *)

Definition in_failed : M reader bool :=
  fun s => Ret (failbit (ins s)) s.

Section Operations.
Variable lz : lzma_api.
Variable zs : zstd_api.
Variable fsys : filesystem.

(** Body of the loop of [createArchive] (lines 85-117). *)
Definition pack_file (compression : CompressionType) (file_path : string)
  : M writer unit :=
  match fs_read fsys file_path with
  | None => warn (Cerr_skipping file_path)
  | Some file_data =>
      compressed_data <- lift (compress_switch lz zs compression file_data);;
      let name_length := Z.of_nat (String.length file_path) mod 2 ^ 32 in
      let original_size := size file_data mod 2 ^ 64 in
      let compressed_size := size compressed_data mod 2 ^ 64 in
      ostream_write (le_split 4 name_length);;
      ostream_write
        (firstn (Z.to_nat name_length) (list_byte_of_string file_path));;
      ostream_write (le_split 8 original_size);;
      ostream_write (le_split 8 compressed_size);;
      ostream_write (firstn (Z.to_nat compressed_size) compressed_data)
  end.

(** Lines 73-119. *)
Definition createArchive (files : list string) (output_path : string)
           (compression : CompressionType) : outcome writer unit :=
  (if fs_create fsys output_path
   then
     ostream_write (le_split 4 MAKAKA_SIGNATURE);;
     ostream_write (le_split 2 MAKAKA_VERSION);;
     ostream_write (le_split 2 (enum_value compression));;
     let file_count := Z.of_nat (List.length files) mod 2 ^ 32 in
     ostream_write (le_split 4 file_count);;
     for_each files (pack_file compression)
   else throw (runtime_error "Failed to create output file"))
    {| out := []; warned := [] |}.

(** Lines 175-179.  [fs::create_directories] throws when it fails; the
    output stream is not tested, so that a stream that did not open takes
    no byte and the run goes on. *)
Definition write_file (output_dir file_name : string) (file_data : list byte)
  : M reader unit :=
  done <- made;;
  match fs_create_directories fsys done output_dir file_name with
  | Some what => throw (filesystem_error what)
  | None =>
      show (Directories_created output_dir file_name);;
      done <- made;;
      match fs_ofstream fsys done output_dir file_name file_data with
      | Some stored => show (File_written output_dir file_name stored)
      | None => ret tt
      end
  end.

(** Body of the loop of [extractArchive] (lines 150-179). *)
Definition extract_entry (compression : option Z) (output_dir : string)
           (verbose : bool) : M reader unit :=
  name_length <- read_scalar 4;;
  n <- use name_length;;
  file_name <- istream_read (repeat Byte.x00 (Z.to_nat n)) n;;
  original_size <- read_scalar 8;;
  compressed_size <- read_scalar 8;;
  when verbose
       (o <- use original_size;;
        c <- use compressed_size;;
        show (Cout_extracting (string_of_list_byte file_name) o c));;
  c <- use compressed_size;;
  compressed_data <- lift (new_vector c);;
  compressed_data <- istream_read compressed_data c;;
  codec <- use compression;;
  file_data <-
    (if codec =? enum_value COMPRESS_ZSTD
     then o <- use original_size;;
          lift (decompressZSTD zs compressed_data o)
     else ret compressed_data);;
  write_file output_dir (string_of_list_byte file_name) file_data.

(** Lines 121-181. *)
Definition extractArchive (archive_path output_dir : string)
           (verbose : bool) : outcome reader unit :=
  (failed <- in_failed;;
   if failed then throw (runtime_error "Failed to open archive")
   else
     signature <- read_scalar 4;;
     sig <- use signature;;
     if negb (sig =? MAKAKA_SIGNATURE)
     then throw (runtime_error "Invalid file format")
     else
       version <- read_scalar 2;;
       compression <- read_scalar 2;;
       when verbose
            (v <- use version;;
             show (Cout_version (Z.shiftr v 8) (Z.land v 0xFF));;
             c <- use compression;;
             show (Cout_compression (compression_label c)));;
       file_count <- read_scalar 4;;
       when verbose (k <- use file_count;; show (Cout_files k));;
       k <- use file_count;;
       times (Z.to_nat k) (extract_entry compression output_dir verbose))
    {| ins := ifstream_open fsys archive_path; shown := [] |}.

(** Body of the loop of [listArchiveContents] (lines 211-224). *)
Definition list_entry : M reader unit :=
  name_length <- read_scalar 4;;
  n <- use name_length;;
  file_name <- istream_read (repeat Byte.x00 (Z.to_nat n)) n;;
  original_size <- read_scalar 8;;
  compressed_size <- read_scalar 8;;
  o <- use original_size;;
  c <- use compressed_size;;
  show (Cout_entry (string_of_list_byte file_name) o c);;
  istream_seekg_cur c.

(** Lines 183-226. *)
Definition listArchiveContents (archive_path : string)
  : outcome reader unit :=
  (failed <- in_failed;;
   if failed then throw (runtime_error "Failed to open archive")
   else
     signature <- read_scalar 4;;
     sig <- use signature;;
     if negb (sig =? MAKAKA_SIGNATURE)
     then throw (runtime_error "Invalid file format")
     else
       version <- read_scalar 2;;
       compression <- read_scalar 2;;
       show (Cout_archive archive_path);;
       v <- use version;;
       show (Cout_version (Z.shiftr v 8) (Z.land v 0xFF));;
       c <- use compression;;
       show (Cout_compression (compression_label c));;
       file_count <- read_scalar 4;;
       k <- use file_count;;
       show (Cout_files k);;
       times (Z.to_nat k) list_entry)
    {| ins := ifstream_open fsys archive_path; shown := [] |}.
End Operations.

(** ** The layout of a well-formed archive

    The byte layout of the specification's format table: a header of
    signature, version, codec and entry count, then the entries one after
    the other, each with its name length, name, the two sizes and exactly
    [compressed_size] payload bytes. *)

Record ArchiveEntry : Type := {
  name : string;
  original_size : Z;
  payload : list byte
}.

Definition compressed_size (e : ArchiveEntry) : Z := size (payload e).

Definition encode_header (version codec entry_count : Z) : list byte :=
  le_split 4 MAKAKA_SIGNATURE ++ le_split 2 version ++ le_split 2 codec
           ++ le_split 4 entry_count.

Definition encode_entry (e : ArchiveEntry) : list byte :=
  le_split 4 (Z.of_nat (String.length (name e)))
           ++ list_byte_of_string (name e)
           ++ le_split 8 (original_size e)
           ++ le_split 8 (compressed_size e)
           ++ payload e.

Definition encode_entries (es : list ArchiveEntry) : list byte :=
  flat_map encode_entry es.

Definition encode_archive (version codec : Z) (es : list ArchiveEntry)
  : list byte :=
  encode_header version codec (Z.of_nat (List.length es)) ++ encode_entries es.

(** Every field fits its width, and the payload is one a file can hold. *)
Definition entry_fits (e : ArchiveEntry) : Prop :=
  Z.of_nat (String.length (name e)) < 2 ^ 32
  /\ 0 <= original_size e < 2 ^ 64
  /\ compressed_size e < 2 ^ 63.

Definition header_fits (version codec : Z) (es : list ArchiveEntry) : Prop :=
  0 <= version < 2 ^ 16
  /\ 0 <= codec < 2 ^ 16
  /\ Z.of_nat (List.length es) < 2 ^ 32.

(** The triple a reader reports for an entry. *)
Definition triple (e : ArchiveEntry) : string * Z * Z :=
  (name e, original_size e, compressed_size e).

(** ** Stand-ins for the libraries, to run the model

    Both store the input unchanged inside a frame that starts with the
    format's magic bytes; each respects the capacity it is given. *)
Module Stored.
Definition zstd_magic : list byte := [Byte.x28; Byte.xb5; Byte.x2f; Byte.xfd].
Definition xz_magic : list byte :=
  [Byte.xfd; Byte.x37; Byte.x7a; Byte.x58; Byte.x5a; Byte.x00].
Definition xz_footer : list byte := [Byte.x59; Byte.x5a].

Definition dstSize_tooSmall : Z := 2 ^ 64 - 70.
Definition prefix_unknown : Z := 2 ^ 64 - 10.

Definition bytes_eqb (a b : list byte) : bool :=
  (le_combine a =? le_combine b) && (List.length a =? List.length b)%nat.

Definition compressBound (n : Z) : Z :=
  n + Z.shiftr n 8 + (if n <? 131072 then Z.shiftr (131072 - n) 11 else 0).

Definition compress (cap : Z) (src : list byte) (level : Z) : Z * list byte :=
  let frame := zstd_magic ++ src in
  if size frame <=? cap then (size frame, frame) else (dstSize_tooSmall, []).

Definition decompress (cap : Z) (src : list byte) : Z * list byte :=
  if bytes_eqb (firstn 4 src) zstd_magic
  then let content := skipn 4 src in
       if size content <=? cap then (size content, content)
       else (dstSize_tooSmall, [])
  else (prefix_unknown, []).

Definition zstd : zstd_api := {|
  ZSTD_compressBound := compressBound;
  ZSTD_maxCLevel := 22;
  ZSTD_compress := compress;
  ZSTD_decompress := decompress;
  ZSTD_isError := fun code => 2 ^ 64 - 120 <? code;
  ZSTD_getErrorName := fun code =>
    if code =? dstSize_tooSmall then "Destination buffer is too small"
    else "Unknown frame descriptor"
|}.

Definition code (input : list byte) (avail_out : Z) : lzma_ret * list byte :=
  let stream := xz_magic ++ input ++ xz_footer in
  if size stream <=? avail_out then (LZMA_STREAM_END, stream)
  else (LZMA_OK, firstn (Z.to_nat avail_out) stream).

Definition lzma : lzma_api := {|
  lzma_easy_encoder := fun _ _ => LZMA_OK;
  lzma_code := code
|}.

(** [output_dir / file_name], as text. *)
Definition join (output_dir file_name : string) : string :=
  (output_dir ++ "/" ++ file_name)%string.

(** A file written before lies on the way to [path]. *)
Definition blocks (path : string) (ev : event) : bool :=
  match ev with
  | File_written d n _ => String.prefix (join d n ++ "/") path
  | _ => false
  end.

(** [path] is a directory: something was made below it before. *)
Definition covers (path : string) (ev : event) : bool :=
  match ev with
  | Directories_created d n | File_written d n _ =>
      String.prefix (path ++ "/") (join d n)
  | _ => false
  end.

(** A readable file lies on the way to [path]. *)
Definition stands_before (path : string) (file : string * list byte) : bool :=
  String.prefix (fst file ++ "/") path.

Fixpoint lookup (files : list (string * list byte)) (path : string)
  : option (list byte) :=
  match files with
  | [] => None
  | (p, bytes) :: rest => if String.eqb p path then Some bytes else lookup rest path
  end.

(** A file system with the given readable files, where the archive can be
    created, and that keeps files and directories apart: no directory is
    made below a readable file or a file written before, and no output
    stream opens on a directory; a stream that opens stores all its
    bytes. *)
Definition disk (files : list (string * list byte)) : filesystem :=
  {| fs_read := lookup files;
     fs_create := fun _ => true;
     fs_create_directories := fun done output_dir file_name =>
       if existsb (stands_before (join output_dir file_name)) files
          || existsb (blocks (join output_dir file_name)) done
       then Some "cannot create directories: Not a directory"
       else None;
     fs_ofstream := fun done output_dir file_name bytes =>
       if existsb (covers (join output_dir file_name)) done
       then None
       else Some bytes |}.
End Stored.

(** ** Vocabulary of the statements *)

(** A stream in good state that has consumed [before] and still holds
    [after]. *)
Definition at_ (before after : list byte) : istream :=
  {| data := before ++ after; pos := size before; failbit := false |}.

(** The line [listArchiveContents] prints for an entry. *)
Definition listed (e : ArchiveEntry) : event :=
  Cout_entry (name e) (original_size e) (compressed_size e).

(** The line a verbose [extractArchive] prints for an entry. *)
Definition announced (verbose : bool) (e : ArchiveEntry) : list event :=
  if verbose
  then [Cout_extracting (name e) (original_size e) (compressed_size e)]
  else [].

(** The effects of a file delivered whole: its directories are made and
    the file holds the bytes. *)
Definition written (output_dir : string) (pd : string * list byte) : list event :=
  [Directories_created output_dir (fst pd);
   File_written output_dir (fst pd) (snd pd)].

(** What [extractArchive] shows for an entry whose payload decodes to
    [file_data] and whose file is delivered whole. *)
Definition extracted (output_dir : string) (verbose : bool)
           (e : ArchiveEntry) (file_data : list byte) : list event :=
  announced verbose e ++ written output_dir (name e, file_data).

(** The file system takes the files [files] (names and bytes) under
    [output_dir] one after the other, after the directories and files
    [done]: each call of [fs::create_directories] returns, and each output
    stream opens and stores all its bytes. *)
Fixpoint output_accepts (fsys : filesystem) (output_dir : string)
         (files : list (string * list byte)) (done : list event) : Prop :=
  match files with
  | [] => True
  | pd :: rest =>
      fs_create_directories fsys done output_dir (fst pd) = None
      /\ fs_ofstream fsys (done ++ [Directories_created output_dir (fst pd)])
                     output_dir (fst pd) (snd pd) = Some (snd pd)
      /\ output_accepts fsys output_dir rest (done ++ written output_dir pd)
  end.

Definition extracted_all (output_dir : string) (verbose : bool)
           (es : list ArchiveEntry) (ds : list (list byte)) : list event :=
  flat_map (fun ed => extracted output_dir verbose (fst ed) (snd ed))
           (combine es ds).

(** Entry [e] fits its fields and its payload decodes to [file_data]. *)
Definition decodes (zs : zstd_api) (codec : Z) (e : ArchiveEntry)
           (file_data : list byte) : Prop :=
  entry_fits e
  /\ decompress_switch zs codec (payload e) (original_size e) = inr file_data.

(** The header lines of a verbose extraction and of a listing. *)
Definition header_shown (version codec entry_count : Z) : list event :=
  [Cout_version (Z.shiftr version 8) (Z.land version 0xFF);
   Cout_compression (compression_label codec);
   Cout_files entry_count].

(** The triples a listing printed, and those a verbose extraction printed. *)
Definition reported (ev : event) : list (string * Z * Z) :=
  match ev with
  | Cout_entry n o c => [(n, o, c)]
  | _ => []
  end.


(** The entry [createArchive] stores for a path: none when the path cannot
    be read. *)
Definition stored_entry (lz : lzma_api) (zs : zstd_api) (fsys : filesystem)
           (compression : CompressionType) (file_path : string)
  : list ArchiveEntry :=
  match fs_read fsys file_path with
  | Some file_data =>
      match compress_switch lz zs compression file_data with
      | inr compressed_data =>
          [{| name := file_path;
              original_size := size file_data;
              payload := compressed_data |}]
      | inl _ => []
      end
  | None => []
  end.

Definition skipped (fsys : filesystem) (file_path : string) : list event :=
  match fs_read fsys file_path with
  | Some _ => []
  | None => [Cerr_skipping file_path]
  end.

(** A path that, when readable, has a name and sizes that fit their fields
    and bytes that the codec accepts. *)
Definition packable (lz : lzma_api) (zs : zstd_api) (fsys : filesystem)
           (compression : CompressionType) (file_path : string) : Prop :=
  match fs_read fsys file_path with
  | Some file_data =>
      Z.of_nat (String.length file_path) < 2 ^ 32
      /\ size file_data < 2 ^ 64
      /\ exists compressed_data,
          compress_switch lz zs compression file_data = inr compressed_data
          /\ size compressed_data < 2 ^ 64
  | None => True
  end.

(** The entry of a readable path when nothing is compressed: both sizes
    are the size of the file and the payload is the file. *)
Definition raw_entry (fsys : filesystem) (file_path : string) : list ArchiveEntry :=
  match fs_read fsys file_path with
  | Some file_data =>
      [{| name := file_path; original_size := size file_data; payload := file_data |}]
  | None => []
  end.

Definition raw_fits (fsys : filesystem) (file_path : string) : Prop :=
  match fs_read fsys file_path with
  | Some file_data =>
      Z.of_nat (String.length file_path) < 2 ^ 32 /\ size file_data < 2 ^ 63
  | None => True
  end.

(** Path [p] is readable with bytes [d], and both fit the format. *)
Definition holds (fsys : filesystem) (p : string) (d : list byte) : Prop :=
  fs_read fsys p = Some d
  /\ Z.of_nat (String.length p) < 2 ^ 32
  /\ size d < 2 ^ 62.

(** What the program needs from libzstd. *)
Record zstd_sound (zs : zstd_api) : Prop := {
  (** the bound of an input below [2 ^ 62] bytes is a size a vector can have *)
  bound_fits : forall n,
      0 <= n < 2 ^ 62 -> 0 <= ZSTD_compressBound zs n <= vector_max_size;
  (** a byte count is not an error code *)
  count_is_no_error : forall n,
      0 <= n <= vector_max_size -> ZSTD_isError zs n = false;
  (** with [ZSTD_compressBound] bytes of room, compression succeeds: it
      stores a frame and returns its length *)
  compress_succeeds : forall src cap level,
      ZSTD_compressBound zs (size src) <= cap ->
      exists frame,
        ZSTD_compress zs cap src level = (size frame, frame) /\ size frame <= cap;
  (** a frame made from [src] decompresses to [src] when given room for it *)
  decompress_inverts : forall src cap level frame room,
      ZSTD_compress zs cap src level = (size frame, frame) ->
      size src <= room ->
      ZSTD_decompress zs room frame = (size src, src)
}.

(** The exception of a rejected signature (lines 128 and 190). *)
Definition FormatError : exn := runtime_error "Invalid file format".

(** An exception that is not the format error. *)
Definition not_format (e : exn) : Prop := e <> FormatError.

(** Every exception [c] can raise satisfies [P]. *)
Definition throws_only {S A : Type} (P : exn -> Prop) (c : M S A) : Prop :=
  forall s e s', c s = Throw e s' -> P e.

(** ** Concrete files and archives *)

Definition hello : list byte := list_byte_of_string "hello".

(** A directory that holds [valid.txt] and nothing else. *)
Definition one_file_disk : filesystem := Stored.disk [("valid.txt", hello)].

Definition valid_entry : ArchiveEntry :=
  {| name := "valid.txt"; original_size := 5; payload := hello |}.

(** A header that announces two entries, followed by one. *)
Definition miscounted_archive : list byte :=
  encode_header MAKAKA_VERSION 0 2 ++ encode_entry valid_entry.

(** One entry [a] that declares 5 payload bytes; the file ends after 2. *)
Definition truncated_archive : list byte :=
  encode_header MAKAKA_VERSION 0 1
    ++ le_split 4 1 ++ list_byte_of_string "a"
    ++ le_split 8 5 ++ le_split 8 5 ++ list_byte_of_string "hi".

Definition truncated_disk : filesystem :=
  Stored.disk [("cut.makaka", truncated_archive)].

(** A file that ends after the version field. *)
Definition cut_header : list byte :=
  le_split 4 MAKAKA_SIGNATURE ++ le_split 2 MAKAKA_VERSION.

Definition empty_lzma_archive : list byte := encode_archive MAKAKA_VERSION 1 [].

Definition xz_entry : ArchiveEntry :=
  {| name := "a"; original_size := 5; payload := Stored.xz_magic |}.

Definition codec7_archive : list byte := encode_archive MAKAKA_VERSION 7 [xz_entry].

Definition lzma_archive : list byte := encode_archive MAKAKA_VERSION 1 [xz_entry].

Definition zstd_entry : ArchiveEntry :=
  {| name := "a.txt"; original_size := 5; payload := Stored.zstd_magic ++ hello |}.


Definition two_files_disk : filesystem :=
  Stored.disk [("a.txt", hello); ("empty.bin", [])].

Definition empty_entry : ArchiveEntry :=
  {| name := "empty.bin"; original_size := 0; payload := [] |}.

Definition empty_file_archive : list byte :=
  encode_header MAKAKA_VERSION 0 1 ++ encode_entry empty_entry.

Definition zip_bytes : list byte := list_byte_of_string "PK34 some other format".

(** * Proofs *)

(** ** Byte vectors and little-endian fields *)

Lemma size_app (a b : list byte) : size (a ++ b) = size a + size b.
Proof. unfold size. rewrite length_app. lia. Qed.

Lemma size_nonneg (a : list byte) : 0 <= size a.
Proof. unfold size. lia. Qed.

Lemma size_le_split (w : nat) (z : Z) : size (le_split w z) = Z.of_nat w.
Proof. unfold size. now rewrite length_le_split. Qed.

Lemma size_repeat (b : byte) (n : nat) : size (repeat b n) = Z.of_nat n.
Proof. unfold size. now rewrite repeat_length. Qed.

Lemma length_bytes_of_string (s : string) :
  List.length (list_byte_of_string s) = String.length s.
Proof.
  unfold list_byte_of_string. rewrite length_map.
  induction s as [|c s IH]; simpl; congruence.
Qed.

Lemma store_whole (written buf : list byte) :
  List.length written = List.length buf -> store written buf = written.
Proof.
  intros H. unfold store.
  rewrite firstn_all2, skipn_all2 by lia. apply app_nil_r.
Qed.

Lemma store_short (written buf : list byte) :
  (List.length written <= List.length buf)%nat ->
  store written buf = written ++ skipn (List.length written) buf.
Proof.
  intros H. unfold store. now rewrite firstn_all2 by assumption.
Qed.

Lemma resize_whole (n : Z) (v : list byte) : n = size v -> resize n v = v.
Proof.
  intros ->. unfold resize, size.
  rewrite Nat2Z.id, firstn_all, Nat.sub_diag. apply app_nil_r.
Qed.

Lemma resize_prefix (v rest : list byte) : resize (size v) (v ++ rest) = v.
Proof.
  unfold resize, size. rewrite Nat2Z.id, length_app.
  replace (List.length v - (List.length v + List.length rest))%nat with 0%nat by lia.
  rewrite firstn_app, firstn_all, Nat.sub_diag. simpl. now rewrite !app_nil_r.
Qed.

Lemma new_vector_fits (n : Z) :
  n <= vector_max_size -> new_vector n = inr (repeat Byte.x00 (Z.to_nat n)).
Proof.
  intros H. unfold new_vector.
  destruct (Z.ltb_spec vector_max_size n); [lia | reflexivity].
Qed.

Lemma le_field (w : nat) (z : Z) :
  0 <= z < 2 ^ (Z.of_nat w * 8) -> le_combine (le_split w z) = z.
Proof. intros H. rewrite le_combine_split. now apply Z.mod_small. Qed.

(** ** The stream primitives on a stream with a known remainder *)

Lemma at_shift (before bytes after : list byte) :
  {| data := before ++ bytes ++ after;
     pos := size before + size bytes;
     failbit := false |} = at_ (before ++ bytes) after.
Proof. unfold at_. now rewrite size_app, app_assoc. Qed.

Lemma rest_at (before after : list byte) :
  skipn (Z.to_nat (size before)) (before ++ after) = after.
Proof.
  unfold size. rewrite Nat2Z.id, skipn_app, skipn_all, Nat.sub_diag. reflexivity.
Qed.

Lemma firstn_exact (bytes after : list byte) (n : nat) :
  n = List.length bytes -> firstn n (bytes ++ after) = bytes.
Proof.
  intros ->. rewrite firstn_app, firstn_all, Nat.sub_diag. simpl. apply app_nil_r.
Qed.

Lemma read_scalar_bytes (w : nat) (bytes before after : list byte) (t : list event) :
  List.length bytes = w ->
  read_scalar w {| ins := at_ before (bytes ++ after); shown := t |}
  = Ret (Some (le_combine bytes))
        {| ins := at_ (before ++ bytes) after; shown := t |}.
Proof.
  intros Hw. unfold read_scalar. cbn [ins at_ failbit data pos shown].
  rewrite rest_at, firstn_exact by congruence.
  rewrite Hw, Nat.eqb_refl.
  rewrite <- at_shift. unfold size. now rewrite Hw, Z.ltb_irrefl.
Qed.

Lemma read_scalar_at (w : nat) (z : Z) (before after : list byte) (t : list event) :
  0 <= z < 2 ^ (Z.of_nat w * 8) ->
  read_scalar w {| ins := at_ before (le_split w z ++ after); shown := t |}
  = Ret (Some z) {| ins := at_ (before ++ le_split w z) after; shown := t |}.
Proof.
  intros Hz. rewrite read_scalar_bytes by apply length_le_split.
  now rewrite le_field.
Qed.

Lemma istream_read_at (buf bytes before after : list byte) (n : Z) (t : list event) :
  n = size bytes -> List.length buf = List.length bytes ->
  istream_read buf n {| ins := at_ before (bytes ++ after); shown := t |}
  = Ret bytes {| ins := at_ (before ++ bytes) after; shown := t |}.
Proof.
  intros -> Hlen. unfold istream_read. cbn [ins at_ failbit data pos shown].
  rewrite rest_at, firstn_exact by (unfold size; now rewrite Nat2Z.id).
  rewrite store_whole by congruence.
  now rewrite Z.ltb_irrefl, at_shift.
Qed.

Lemma to_streamoff_small (n : Z) : n < 2 ^ 63 -> to_streamoff n = n.
Proof. intros H. unfold to_streamoff. destruct (Z.ltb_spec n (2 ^ 63)); lia. Qed.

Lemma istream_seekg_at (bytes before after : list byte) (t : list event) :
  size (before ++ bytes) < 2 ^ 63 ->
  istream_seekg_cur (size bytes) {| ins := at_ before (bytes ++ after); shown := t |}
  = Ret tt {| ins := at_ (before ++ bytes) after; shown := t |}.
Proof.
  intros H. unfold istream_seekg_cur. cbn [ins at_ failbit data pos shown].
  rewrite size_app in H.
  pose proof (size_nonneg before). pose proof (size_nonneg bytes).
  rewrite to_streamoff_small by lia.
  destruct (Z.leb_spec 0 (size before + size bytes)); [|lia].
  destruct (Z.ltb_spec (size before + size bytes) (2 ^ 63)); [|lia].
  cbn [andb]. now rewrite at_shift.
Qed.

(** ** One entry of a well-formed archive *)

Ltac unfold_proc :=
  cbv beta iota delta [bind use ret when lift show throw in_failed made].

Lemma list_entry_at (e : ArchiveEntry) (before after : list byte) (t : list event) :
  entry_fits e ->
  size (before ++ encode_entry e) < 2 ^ 63 ->
  list_entry {| ins := at_ before (encode_entry e ++ after); shown := t |}
  = Ret tt {| ins := at_ (before ++ encode_entry e) after;
              shown := t ++ [Cout_entry (name e) (original_size e) (compressed_size e)] |}.
Proof.
  intros (Hname & Hosz & Hcsz) Hpos.
  pose proof (size_nonneg (payload e)) as Hp. fold (compressed_size e) in Hp.
  unfold encode_entry in *. rewrite <- !app_assoc.
  unfold list_entry. unfold_proc.
  rewrite read_scalar_at by (simpl; lia).
  rewrite (istream_read_at _ (list_byte_of_string (name e)))
    by (unfold size; rewrite ?repeat_length, ?Nat2Z.id, length_bytes_of_string; reflexivity).
  rewrite read_scalar_at by (simpl; lia).
  rewrite read_scalar_at by (simpl; lia).
  cbn [ins shown].
  rewrite string_of_list_byte_of_string.
  unfold compressed_size.
  rewrite istream_seekg_at by (now rewrite <- !app_assoc).
  now rewrite <- !app_assoc.
Qed.

(** Console output makes nothing on the disk. *)
Lemma made_announced (verbose : bool) (e : ArchiveEntry) (t : list event) :
  filter on_disk (t ++ announced verbose e) = filter on_disk t.
Proof.
  rewrite filter_app. destruct verbose; cbn; now rewrite app_nil_r.
Qed.

Lemma made_extracted (output_dir : string) (verbose : bool) (e : ArchiveEntry)
      (file_data : list byte) (t : list event) :
  filter on_disk (t ++ extracted output_dir verbose e file_data)
  = filter on_disk t ++ written output_dir (name e, file_data).
Proof.
  unfold extracted. rewrite app_assoc, filter_app, made_announced. reflexivity.
Qed.

Section ExtractEntry.
Variable zs : zstd_api.
Variable fsys : filesystem.

(** A destination that the file system takes whole. *)
Lemma write_file_accepted (output_dir file_name : string) (file_data : list byte)
      (i : istream) (t : list event) :
  fs_create_directories fsys (filter on_disk t) output_dir file_name = None ->
  fs_ofstream fsys (filter on_disk t ++ [Directories_created output_dir file_name])
              output_dir file_name file_data = Some file_data ->
  write_file fsys output_dir file_name file_data {| ins := i; shown := t |}
  = Ret tt {| ins := i; shown := t ++ written output_dir (file_name, file_data) |}.
Proof.
  intros Hdir Hout. unfold write_file. unfold_proc. cbn [ins shown].
  rewrite Hdir. cbn [ins shown]. rewrite filter_app. cbn [filter on_disk].
  rewrite Hout. cbn [ins shown]. unfold written. cbn [fst snd].
  now rewrite <- app_assoc.
Qed.

Lemma extract_entry_run (codec : Z) (output_dir : string) (verbose : bool)
      (e : ArchiveEntry) (before after : list byte) (t : list event) :
  entry_fits e ->
  extract_entry zs fsys (Some codec) output_dir verbose
                {| ins := at_ before (encode_entry e ++ after); shown := t |}
  = match decompress_switch zs codec (payload e) (original_size e) with
    | inr file_data =>
        write_file fsys output_dir (name e) file_data
                   {| ins := at_ (before ++ encode_entry e) after;
                      shown := t ++ announced verbose e |}
    | inl ex =>
        Throw ex {| ins := at_ (before ++ encode_entry e) after;
                    shown := t ++ announced verbose e |}
    end.
Proof.
  intros (Hname & Hosz & Hcsz).
  pose proof (size_nonneg (payload e)) as Hp. fold (compressed_size e) in Hp.
  unfold encode_entry. rewrite <- !app_assoc.
  unfold extract_entry. unfold_proc.
  rewrite read_scalar_at by (simpl; lia).
  rewrite (istream_read_at _ (list_byte_of_string (name e)))
    by (unfold size; rewrite ?repeat_length, ?Nat2Z.id, length_bytes_of_string; reflexivity).
  rewrite read_scalar_at by (simpl; lia).
  rewrite read_scalar_at by (simpl; lia).
  rewrite string_of_list_byte_of_string.
  assert (Hvec : new_vector (compressed_size e)
                 = inr (repeat Byte.x00 (Z.to_nat (compressed_size e))))
    by (apply new_vector_fits; unfold vector_max_size; lia).
  unfold decompress_switch, announced.
  destruct verbose; cbn [ins shown]; rewrite Hvec;
    (rewrite (istream_read_at _ (payload e))
      by (unfold compressed_size, size; rewrite ?repeat_length, ?Nat2Z.id; reflexivity));
    destruct (codec =? enum_value COMPRESS_ZSTD);
    try destruct (decompressZSTD zs (payload e) (original_size e));
    cbn [ins shown]; rewrite <- ?app_assoc, ?app_nil_r; reflexivity.
Qed.

Lemma extract_entry_at (codec : Z) (output_dir : string) (verbose : bool)
      (e : ArchiveEntry) (file_data before after : list byte) (t : list event) :
  entry_fits e ->
  decompress_switch zs codec (payload e) (original_size e) = inr file_data ->
  fs_create_directories fsys (filter on_disk t) output_dir (name e) = None ->
  fs_ofstream fsys (filter on_disk t ++ [Directories_created output_dir (name e)])
              output_dir (name e) file_data = Some file_data ->
  extract_entry zs fsys (Some codec) output_dir verbose
                {| ins := at_ before (encode_entry e ++ after); shown := t |}
  = Ret tt {| ins := at_ (before ++ encode_entry e) after;
              shown := t ++ extracted output_dir verbose e file_data |}.
Proof.
  intros Hfit Hdec Hdir Hout. rewrite extract_entry_run, Hdec by assumption.
  rewrite write_file_accepted by (rewrite made_announced; assumption).
  unfold extracted. now rewrite <- app_assoc.
Qed.
End ExtractEntry.

(** ** Whole well-formed archives *)

Lemma list_entries_at (es : list ArchiveEntry) :
  forall (before after : list byte) (t : list event),
    Forall entry_fits es ->
    size (before ++ encode_entries es) < 2 ^ 63 ->
    times (List.length es) list_entry
          {| ins := at_ before (encode_entries es ++ after); shown := t |}
    = Ret tt {| ins := at_ (before ++ encode_entries es) after;
                shown := t ++ map listed es |}.
Proof.
  induction es as [|e es IH]; intros before after t Hfit Hsize.
  - cbn. now rewrite !app_nil_r.
  - inversion Hfit as [|? ? He Hes]; subst.
    cbn [List.length times encode_entries flat_map map] in *.
    fold (encode_entries es) in *.
    rewrite <- app_assoc. unfold bind.
    rewrite list_entry_at; auto.
    + rewrite IH; auto.
      * now rewrite <- !app_assoc.
      * now rewrite <- app_assoc.
    + rewrite app_assoc, size_app in Hsize.
      pose proof (size_nonneg (encode_entries es)). lia.
Qed.

Section ExtractEntries.
Variable zs : zstd_api.
Variable fsys : filesystem.

Lemma extract_entries_at (codec : Z) (output_dir : string) (verbose : bool)
      (es : list ArchiveEntry) (ds : list (list byte)) :
  Forall2 (decodes zs codec) es ds ->
  forall (before after : list byte) (t : list event),
    output_accepts fsys output_dir (combine (map name es) ds) (filter on_disk t) ->
    times (List.length es) (extract_entry zs fsys (Some codec) output_dir verbose)
          {| ins := at_ before (encode_entries es ++ after); shown := t |}
    = Ret tt {| ins := at_ (before ++ encode_entries es) after;
                shown := t ++ extracted_all output_dir verbose es ds |}.
Proof.
  induction 1 as [|e d es ds [Hfit Hdec] _ IH]; intros before after t Hacc.
  - cbn. now rewrite !app_nil_r.
  - cbn [map combine output_accepts fst snd] in Hacc.
    destruct Hacc as (Hdir & Hout & Hacc).
    cbn [List.length times encode_entries flat_map combine extracted_all fst snd].
    fold (encode_entries es). fold (extracted_all output_dir verbose es ds).
    rewrite <- app_assoc. unfold bind.
    rewrite (extract_entry_at zs fsys codec output_dir verbose e d) by assumption.
    rewrite IH by (rewrite made_extracted; assumption).
    now rewrite <- !app_assoc.
Qed.
End ExtractEntries.

Lemma opened (fsys : filesystem) (path : string) (bytes : list byte) :
  fs_read fsys path = Some bytes -> ifstream_open fsys path = at_ [] bytes.
Proof. intros H. unfold ifstream_open. now rewrite H. Qed.

Lemma signature_field : 0 <= MAKAKA_SIGNATURE < 2 ^ (Z.of_nat 4 * 8).
Proof. unfold MAKAKA_SIGNATURE. simpl. lia. Qed.

Lemma listArchiveContents_well_formed
      (fsys : filesystem) (path : string) (version codec : Z)
      (es : list ArchiveEntry) :
  fs_read fsys path = Some (encode_archive version codec es) ->
  header_fits version codec es ->
  Forall entry_fits es ->
  size (encode_archive version codec es) < 2 ^ 63 ->
  listArchiveContents fsys path
  = Ret tt {| ins := at_ (encode_archive version codec es) [];
              shown := Cout_archive path
                         :: header_shown version codec (Z.of_nat (List.length es))
                         ++ map listed es |}.
Proof.
  intros Hfs (Hv & Hc & Hn) Hfit Hsize.
  unfold listArchiveContents. rewrite (opened _ _ _ Hfs).
  unfold encode_archive, encode_header in *. rewrite <- !app_assoc in *.
  unfold_proc. cbn [ins at_ failbit].
  fold (at_ [] (le_split 4 MAKAKA_SIGNATURE ++ le_split 2 version ++ le_split 2 codec
                         ++ le_split 4 (Z.of_nat (List.length es)) ++ encode_entries es)).
  rewrite read_scalar_at by apply signature_field.
  rewrite Z.eqb_refl. cbn [negb].
  rewrite read_scalar_at by (simpl; lia).
  rewrite read_scalar_at by (simpl; lia).
  cbn [ins shown].
  rewrite read_scalar_at by (simpl; lia).
  cbn [ins shown]. rewrite Nat2Z.id.
  rewrite <- (app_nil_r (encode_entries es)) at 1.
  rewrite list_entries_at; auto; cbn [app]; now rewrite <- !app_assoc.
Qed.

Lemma extractArchive_well_formed
      (zs : zstd_api) (fsys : filesystem) (path output_dir : string)
      (verbose : bool) (version codec : Z)
      (es : list ArchiveEntry) (ds : list (list byte)) :
  fs_read fsys path = Some (encode_archive version codec es) ->
  header_fits version codec es ->
  Forall2 (decodes zs codec) es ds ->
  output_accepts fsys output_dir (combine (map name es) ds) [] ->
  extractArchive zs fsys path output_dir verbose
  = Ret tt {| ins := at_ (encode_archive version codec es) [];
              shown := (if verbose
                        then header_shown version codec (Z.of_nat (List.length es))
                        else [])
                         ++ extracted_all output_dir verbose es ds |}.
Proof.
  intros Hfs (Hv & Hc & Hn) Hdec Hacc.
  unfold extractArchive. rewrite (opened _ _ _ Hfs).
  unfold encode_archive, encode_header in *. rewrite <- !app_assoc in *.
  unfold_proc. cbn [ins at_ failbit].
  fold (at_ [] (le_split 4 MAKAKA_SIGNATURE ++ le_split 2 version ++ le_split 2 codec
                         ++ le_split 4 (Z.of_nat (List.length es)) ++ encode_entries es)).
  rewrite read_scalar_at by apply signature_field.
  rewrite Z.eqb_refl. cbn [negb].
  rewrite read_scalar_at by (simpl; lia).
  rewrite read_scalar_at by (simpl; lia).
  destruct verbose; cbn [ins shown];
    (rewrite read_scalar_at by (simpl; lia));
    cbn [ins shown]; rewrite Nat2Z.id;
    rewrite <- (app_nil_r (encode_entries es)) at 1;
    rewrite (extract_entries_at zs fsys codec _ _ es ds Hdec) by exact Hacc;
    cbn [app]; now rewrite <- !app_assoc.
Qed.

(** ** The writer *)

Section Writer.
Variable lz : lzma_api.
Variable zs : zstd_api.
Variable fsys : filesystem.

Lemma pack_file_run (compression : CompressionType) (file_path : string)
      (o : list byte) (w : list event) :
  packable lz zs fsys compression file_path ->
  pack_file lz zs fsys compression file_path {| out := o; warned := w |}
  = Ret tt {| out := o ++ encode_entries (stored_entry lz zs fsys compression file_path);
              warned := w ++ skipped fsys file_path |}.
Proof.
  unfold packable, pack_file, stored_entry, skipped.
  destruct (fs_read fsys file_path) as [file_data|].
  - intros (Hname & Hsize & cd & -> & Hcd).
    pose proof (size_nonneg file_data). pose proof (size_nonneg cd).
    cbv beta iota delta [bind lift ret ostream_write out warned].
    rewrite !Z.mod_small by lia.
    rewrite !firstn_all2
      by (rewrite ?length_bytes_of_string; unfold size; lia).
    cbn [encode_entries flat_map]. unfold encode_entry, compressed_size.
    cbn [name original_size payload].
    now rewrite !app_nil_r, <- !app_assoc.
  - intros _. cbn. now rewrite app_nil_r.
Qed.

Lemma pack_files_run (compression : CompressionType) (files : list string) :
  Forall (packable lz zs fsys compression) files ->
  forall (o : list byte) (w : list event),
    for_each files (pack_file lz zs fsys compression) {| out := o; warned := w |}
    = Ret tt {| out := o ++ encode_entries (flat_map (stored_entry lz zs fsys compression) files);
                warned := w ++ flat_map (skipped fsys) files |}.
Proof.
  induction 1 as [|p files Hp _ IH]; intros o w.
  - cbn. now rewrite !app_nil_r.
  - cbn [for_each flat_map]. unfold bind.
    rewrite pack_file_run by assumption. rewrite IH.
    unfold encode_entries. now rewrite !flat_map_app, <- !app_assoc.
Qed.

(** The stream [createArchive] writes: the header counts every path of
    the list, and the entries are those of the paths that could be read. *)
Lemma createArchive_layout (files : list string) (output_path : string)
      (compression : CompressionType) :
  fs_create fsys output_path = true ->
  Forall (packable lz zs fsys compression) files ->
  createArchive lz zs fsys files output_path compression
  = Ret tt {| out := encode_header MAKAKA_VERSION (enum_value compression)
                                   (Z.of_nat (List.length files) mod 2 ^ 32)
                       ++ encode_entries (flat_map (stored_entry lz zs fsys compression) files);
              warned := flat_map (skipped fsys) files |}.
Proof.
  intros Hcreate Hpack. unfold createArchive. rewrite Hcreate.
  cbv beta iota zeta delta [bind ostream_write out warned].
  rewrite pack_files_run by assumption.
  unfold encode_header. cbn [app]. now rewrite <- !app_assoc.
Qed.
End Writer.

Section ZstdRoundTrip.
Variable zs : zstd_api.
Hypothesis sound : zstd_sound zs.

Lemma zstd_round_trip (b : list byte) :
  size b < 2 ^ 62 ->
  exists frame,
    compressWithZSTD zs b = inr frame
    /\ size frame <= vector_max_size
    /\ decompressZSTD zs frame (size b) = inr b.
Proof.
  intros Hb. pose proof (size_nonneg b) as Hb0.
  destruct (bound_fits zs sound (size b)) as [Hlo Hhi]; [lia|].
  assert (Hroom : size (repeat Byte.x00 (Z.to_nat (ZSTD_compressBound zs (size b))))
                  = ZSTD_compressBound zs (size b))
    by (rewrite size_repeat; lia).
  destruct (compress_succeeds zs sound b (ZSTD_compressBound zs (size b))
                              (ZSTD_maxCLevel zs)) as (frame & Hc & Hlen); [lia|].
  pose proof (size_nonneg frame) as Hf0.
  exists frame. repeat split.
  - unfold compressWithZSTD. rewrite new_vector_fits by assumption.
    rewrite Hroom, Hc.
    rewrite (count_is_no_error zs sound) by lia.
    rewrite store_short by (rewrite repeat_length; unfold size in *; lia).
    now rewrite resize_prefix.
  - lia.
  - unfold decompressZSTD.
    rewrite new_vector_fits by (unfold vector_max_size; lia).
    rewrite size_repeat, Z2Nat.id by lia.
    rewrite (decompress_inverts zs sound b _ _ frame (size b) Hc) by lia.
    rewrite (count_is_no_error zs sound) by (unfold vector_max_size; lia).
    rewrite store_whole by (rewrite repeat_length; unfold size; now rewrite Nat2Z.id).
    reflexivity.
Qed.
End ZstdRoundTrip.

(** ** Codec round trips *)

Section RoundTrip.
Variable lz : lzma_api.
Variable zs : zstd_api.
Hypothesis sound : zstd_sound zs.

Lemma switch_round_trip (compression : CompressionType) (b : list byte) :
  compression = COMPRESS_NONE \/ compression = COMPRESS_ZSTD ->
  size b < 2 ^ 62 ->
  exists stored,
    compress_switch lz zs compression b = inr stored
    /\ size stored <= vector_max_size
    /\ decompress_switch zs (enum_value compression) stored (size b) = inr b.
Proof.
  intros [-> | ->] Hb.
  - exists b. cbn. repeat split. unfold vector_max_size. lia.
  - destruct (zstd_round_trip zs sound b Hb) as (frame & Hc & Hlen & Hd).
    exists frame. cbn. auto.
Qed.

Variable fsys : filesystem.

Lemma stored_files (compression : CompressionType) (output_dir : string)
      (files : list string) (contents : list (list byte)) :
  compression = COMPRESS_NONE \/ compression = COMPRESS_ZSTD ->
  Forall2 (holds fsys) files contents ->
  Forall (packable lz zs fsys compression) files
  /\ Forall2 (decodes zs (enum_value compression))
             (flat_map (stored_entry lz zs fsys compression) files) contents
  /\ List.length (flat_map (stored_entry lz zs fsys compression) files)
     = List.length files
  /\ extracted_all output_dir false
                   (flat_map (stored_entry lz zs fsys compression) files) contents
     = flat_map (written output_dir) (combine files contents)
  /\ map name (flat_map (stored_entry lz zs fsys compression) files) = files.
Proof.
  intros Hc. induction 1 as [|p d files contents (Hread & Hname & Hsize) _ IH].
  - cbn. repeat split; constructor.
  - destruct IH as (IHp & IHd & IHl & IHe & IHn).
    destruct (switch_round_trip compression d Hc Hsize) as (cd & Hcd & Hlen & Hdec).
    pose proof (size_nonneg d).
    assert (Hst : stored_entry lz zs fsys compression p
                  = [{| name := p; original_size := size d; payload := cd |}])
      by (unfold stored_entry; now rewrite Hread, Hcd).
    cbn [flat_map]. rewrite Hst. cbn [app List.length combine map].
    repeat split.
    + constructor; [|assumption].
      unfold packable. rewrite Hread. repeat split; try lia.
      exists cd. split; [assumption | unfold vector_max_size in Hlen; lia].
    + constructor; [|assumption].
      split; [|exact Hdec].
      unfold entry_fits, compressed_size. cbn [name original_size payload].
      unfold vector_max_size in Hlen. lia.
    + now rewrite IHl.
    + unfold extracted_all in *. cbn [combine flat_map fst snd].
      rewrite IHe. reflexivity.
    + cbn [name]. now rewrite IHn.
Qed.
End RoundTrip.

(** C1.  When every path of the list can be read, extracting the archive
    that [createArchive] wrote with no compression or with ZSTD writes, for
    every input path and in the order of the list, a file with exactly the
    bytes read from that path.  The assumptions say that libzstd honours its
    contract, that the archive can be created and is not one of its own
    inputs, that the counts and sizes fit the fields of the format, and that
    the file system takes every destination of the extraction: the
    directories are created and each output stream opens and stores all its
    bytes. *)
Theorem extract_createArchive_round_trip
        (lz : lzma_api) (zs : zstd_api) (fsys : filesystem)
        (files : list string) (contents : list (list byte))
        (output_path : string) (compression : CompressionType) :
  zstd_sound zs ->
  compression = COMPRESS_NONE \/ compression = COMPRESS_ZSTD ->
  fs_create fsys output_path = true ->
  ~ In output_path files ->
  Z.of_nat (List.length files) < 2 ^ 32 ->
  Forall2 (holds fsys) files contents ->
  exists w,
    createArchive lz zs fsys files output_path compression = Ret tt w
    /\ forall (fsys' : filesystem) (archive_path output_dir : string),
      fs_read fsys' archive_path = Some (out w) ->
      output_accepts fsys' output_dir (combine files contents) [] ->
      exists r,
        extractArchive zs fsys' archive_path output_dir false = Ret tt r
        /\ shown r = flat_map (written output_dir) (combine files contents).
Proof.
  intros Hsound Hc Hcreate _ Hcount Hfiles.
  eexists. split.
  - destruct (stored_files lz zs Hsound fsys compression "" files contents Hc Hfiles)
      as (Hpack & _).
    apply createArchive_layout; assumption.
  - intros fsys' archive_path output_dir Hread Hacc. cbn [out] in Hread.
    destruct (stored_files lz zs Hsound fsys compression output_dir files contents
                           Hc Hfiles) as (_ & Hdec & Hlen & Hshown & Hnames).
    rewrite Z.mod_small, <- Hlen in Hread by lia.
    eexists. split.
    + eapply (extractArchive_well_formed zs fsys' archive_path output_dir false
                                         MAKAKA_VERSION (enum_value compression));
        [exact Hread | | exact Hdec | now rewrite Hnames].
      unfold header_fits, MAKAKA_VERSION. rewrite Hlen.
      destruct compression; cbn; lia.
    + cbn [shown app]. exact Hshown.
Qed.

(** ** Which exceptions a reader can raise *)

Create HintDb throws.

Section ThrowsOnly.
Context {S : Type} (P : exn -> Prop).

Lemma throws_only_ret {A} (a : A) : throws_only P (ret a : M S A).
Proof. intros s e s' H. discriminate H. Qed.

Lemma throws_only_use {A} (v : option A) : throws_only P (use v : M S A).
Proof. intros s e s' H. destruct v; discriminate H. Qed.

Lemma throws_only_throw {A} (e : exn) : P e -> throws_only P (throw e : M S A).
Proof. intros He s e' s' H. now injection H as <- _. Qed.

Lemma throws_only_lift {A} (r : result A) :
  (forall e, r = inl e -> P e) -> throws_only P (lift r : M S A).
Proof.
  intros Hr s e s' H. destruct r as [e0|a]; [|discriminate H].
  injection H as <- _. now apply Hr.
Qed.

Lemma throws_only_bind {A B} (c : M S A) (k : A -> M S B) :
  throws_only P c -> (forall a, throws_only P (k a)) -> throws_only P (bind c k).
Proof.
  intros Hc Hk s e s' H. unfold bind in H.
  destruct (c s) as [a s1|e1 s1|] eqn:E.
  - eapply Hk, H.
  - injection H as <- _. eapply Hc, E.
  - discriminate H.
Qed.

Lemma throws_only_when (b : bool) (c : M S unit) :
  throws_only P c -> throws_only P (when b c).
Proof. intros Hc. destruct b; [exact Hc | apply throws_only_ret]. Qed.

Lemma throws_only_times (n : nat) (body : M S unit) :
  throws_only P body -> throws_only P (times n body).
Proof.
  intros Hb. induction n as [|n IH]; cbn [times].
  - apply throws_only_ret.
  - apply throws_only_bind; auto.
Qed.
End ThrowsOnly.

Section ReaderThrows.
Variable P : exn -> Prop.

Lemma throws_only_read_scalar (w : nat) : throws_only P (read_scalar w).
Proof.
  intros s e s' H. unfold read_scalar in H.
  destruct (failbit (ins s)); discriminate H.
Qed.

Lemma throws_only_istream_read (buf : list byte) (n : Z) :
  throws_only P (istream_read buf n).
Proof.
  intros s e s' H. unfold istream_read in H.
  destruct (failbit (ins s)); discriminate H.
Qed.

Lemma throws_only_seekg (off : Z) : throws_only P (istream_seekg_cur off).
Proof.
  intros s e s' H. unfold istream_seekg_cur in H.
  destruct (failbit (ins s)); [discriminate H|].
  destruct ((0 <=? _) && _); discriminate H.
Qed.

Lemma throws_only_show (ev : event) : throws_only P (show ev).
Proof. intros s e s' H. discriminate H. Qed.

Lemma throws_only_made : throws_only P made.
Proof. intros s e s' H. discriminate H. Qed.
End ReaderThrows.

#[local] Hint Resolve throws_only_ret throws_only_use throws_only_read_scalar
  throws_only_istream_read throws_only_seekg throws_only_show throws_only_made
  throws_only_when throws_only_times : throws.

Ltac throws_step :=
  first [ apply throws_only_bind; [solve [auto with throws] | intros]
        | solve [auto with throws] ].

(** The body of the listing has no [throw] and calls nothing that has. *)
Lemma list_entry_never_throws : throws_only (fun _ => False) list_entry.
Proof. unfold list_entry. repeat throws_step. Qed.

Lemma new_vector_throws (n : Z) (e : exn) :
  new_vector n = inl e -> not_format e.
Proof.
  unfold new_vector. destruct (vector_max_size <? n); [|discriminate].
  intros H. injection H as <-. discriminate.
Qed.

Lemma decompressZSTD_throws (zs : zstd_api) (input : list byte) (n : Z) (e : exn) :
  decompressZSTD zs input n = inl e -> not_format e.
Proof.
  unfold decompressZSTD.
  destruct (new_vector n) as [e0|output] eqn:Hv.
  - intros H. injection H as <-. eapply new_vector_throws, Hv.
  - destruct (ZSTD_decompress zs (size output) input) as [code produced].
    destruct (ZSTD_isError zs code); [|discriminate].
    intros H. injection H as <-. unfold not_format, FormatError. cbn. discriminate.
Qed.

Lemma write_file_throws (fsys : filesystem) (output_dir file_name : string)
      (file_data : list byte) :
  throws_only not_format (write_file fsys output_dir file_name file_data).
Proof.
  unfold write_file. throws_step.
  destruct (fs_create_directories _ _ _ _);
    [apply throws_only_throw; discriminate|].
  do 2 throws_step.
  destruct (fs_ofstream _ _ _ _ _); auto with throws.
Qed.

Lemma extract_entry_throws (zs : zstd_api) (fsys : filesystem)
      (compression : option Z) (output_dir : string) (verbose : bool) :
  throws_only not_format (extract_entry zs fsys compression output_dir verbose).
Proof.
  unfold extract_entry.
  do 5 throws_step.
  apply throws_only_bind; [apply throws_only_when; repeat throws_step | intros].
  throws_step.
  apply throws_only_bind;
    [apply throws_only_lift; apply new_vector_throws | intros].
  do 2 throws_step.
  apply throws_only_bind; [|intros; apply write_file_throws].
  destruct (_ =? _); [|auto with throws].
  throws_step. apply throws_only_lift. apply decompressZSTD_throws.
Qed.

(** ** Streams that start with the signature *)

Lemma bind_run {S A B : Type} (c : M S A) (k : A -> M S B) (s s1 : S) (a : A) :
  c s = Ret a s1 -> bind c k s = k a s1.
Proof. intros H. unfold bind. now rewrite H. Qed.

(** Runs a reader up to the test of the signature, on a stream that starts
    with it. *)
Ltac accept_signature Hfs :=
  rewrite (opened _ _ _ Hfs);
  erewrite bind_run by reflexivity;
  cbn [at_ failbit ins];
  erewrite bind_run by (apply read_scalar_at; apply signature_field);
  erewrite bind_run by reflexivity;
  rewrite Z.eqb_refl; cbn [negb].

Lemma extractArchive_failures
      (zs : zstd_api) (fsys : filesystem) (path output_dir : string)
      (verbose : bool) (rest : list byte) (e : exn) (s : reader) :
  fs_read fsys path = Some (le_split 4 MAKAKA_SIGNATURE ++ rest) ->
  extractArchive zs fsys path output_dir verbose = Throw e s ->
  not_format e.
Proof.
  intros Hfs. unfold extractArchive. accept_signature Hfs.
  match goal with
  | |- ?c ?s0 = Throw _ _ -> _ =>
      intros H; assert (Ht : throws_only not_format c);
      [ | exact (Ht _ _ _ H)]
  end.
  do 2 throws_step.
  apply throws_only_bind; [apply throws_only_when; repeat throws_step | intros].
  throws_step.
  apply throws_only_bind; [apply throws_only_when; repeat throws_step | intros].
  throws_step.
  apply throws_only_times, extract_entry_throws.
Qed.

Lemma listArchiveContents_never_throws
      (fsys : filesystem) (path : string) (rest : list byte) (e : exn) (s : reader) :
  fs_read fsys path = Some (le_split 4 MAKAKA_SIGNATURE ++ rest) ->
  listArchiveContents fsys path <> Throw e s.
Proof.
  intros Hfs. unfold listArchiveContents. accept_signature Hfs.
  match goal with
  | |- ?c ?s0 <> Throw _ _ =>
      intros H; assert (Ht : throws_only (fun _ => False) c);
      [ | exact (Ht _ _ _ H)]
  end.
  do 10 throws_step.
  apply throws_only_times, list_entry_never_throws.
Qed.

(** A stream that ends inside the header, after the signature: the entry
    count, at least, was not read, and the loop tests it. *)
Lemma cut_header_is_undefined
      (zs : zstd_api) (fsys : filesystem) (path output_dir : string)
      (verbose : bool) (rest : list byte) :
  fs_read fsys path = Some (le_split 4 MAKAKA_SIGNATURE ++ rest) ->
  size rest < 8 ->
  extractArchive zs fsys path output_dir verbose = Undef
  /\ listArchiveContents fsys path = Undef.
Proof.
  intros Hfs Hcut. unfold extractArchive, listArchiveContents.
  rewrite (opened _ _ _ Hfs).
  do 8 (destruct rest as [|? rest]; [destruct verbose; split; reflexivity|]).
  unfold size in Hcut. cbn [List.length] in Hcut. lia.
Qed.

(** C7, as the program behaves.  On a stream that starts with the
    signature, truncated or not, no reader raises the format error: after
    the test of the signature no read is checked, so that a truncation is
    not detected.  A stream that ends inside the eight header bytes after
    the signature makes both readers use a header field that was never
    read. *)
Theorem truncation_is_not_a_format_error
        (zs : zstd_api) (fsys : filesystem) (path output_dir : string)
        (verbose : bool) (rest : list byte) :
  fs_read fsys path = Some (le_split 4 MAKAKA_SIGNATURE ++ rest) ->
  (forall s, extractArchive zs fsys path output_dir verbose <> Throw FormatError s)
  /\ (forall s, listArchiveContents fsys path <> Throw FormatError s)
  /\ (size rest < 8 ->
      extractArchive zs fsys path output_dir verbose = Undef
      /\ listArchiveContents fsys path = Undef).
Proof.
  intros Hfs. split; [|split].
  - intros s H.
    now apply (extractArchive_failures zs fsys path output_dir verbose rest _ s Hfs H).
  - intros s. eapply listArchiveContents_never_throws, Hfs.
  - now apply cut_header_is_undefined.
Qed.

(** C6.  A stream of at least four bytes whose first four bytes are not
    the signature makes both readers raise "Invalid file format" after
    reading those four bytes and before any effect: nothing was printed
    and no file was written. *)
Theorem bad_signature_is_rejected
        (zs : zstd_api) (fsys : filesystem) (path output_dir : string)
        (verbose : bool) (bytes : list byte) :
  fs_read fsys path = Some bytes ->
  (4 <= List.length bytes)%nat ->
  firstn 4 bytes <> le_split 4 MAKAKA_SIGNATURE ->
  let rejected :=
    Throw FormatError
          {| ins := {| data := bytes; pos := 4; failbit := false |}; shown := [] |} in
  extractArchive zs fsys path output_dir verbose = rejected
  /\ listArchiveContents fsys path = rejected.
Proof.
  intros Hfs Hlen Hsig rejected.
  assert (Hfour : List.length (firstn 4 bytes) = 4%nat)
    by (rewrite length_firstn; lia).
  assert (Hne : (le_combine (firstn 4 bytes) =? MAKAKA_SIGNATURE) = false).
  { apply Z.eqb_neq. intros Heq. apply Hsig.
    rewrite <- (split_le_combine (firstn 4 bytes)), Hfour. now rewrite Heq. }
  assert (Hst : forall t,
             read_scalar 4 {| ins := at_ [] bytes; shown := t |}
             = Ret (Some (le_combine (firstn 4 bytes)))
                   {| ins := {| data := bytes; pos := 4; failbit := false |};
                      shown := t |}).
  { intros t. rewrite <- (firstn_skipn 4 bytes) at 1.
    rewrite read_scalar_bytes by assumption.
    unfold at_. cbn [app]. rewrite firstn_skipn.
    unfold size. now rewrite Hfour. }
  unfold extractArchive, listArchiveContents, rejected, FormatError.
  rewrite (opened _ _ _ Hfs).
  split;
    (erewrite bind_run by reflexivity);
    cbn [at_ failbit ins]; fold (at_ [] bytes);
    (erewrite bind_run by apply Hst);
    (erewrite bind_run by reflexivity);
    rewrite Hne; reflexivity.
Qed.

(** ** Archives whose codec field is not ZSTD *)

Lemma times_ext {S : Type} (f g : M S unit) :
  (forall s, f s = g s) -> forall n s, times n f s = times n g s.
Proof.
  intros Hfg. induction n as [|n IH]; intros s; cbn [times]; [reflexivity|].
  unfold bind. rewrite Hfg. destruct (g s); auto.
Qed.

Lemma extract_entry_ignores_zstd (zs zs' : zstd_api) (fsys : filesystem)
      (codec : Z) (output_dir : string) (verbose : bool) (s : reader) :
  codec <> enum_value COMPRESS_ZSTD ->
  extract_entry zs fsys (Some codec) output_dir verbose s
  = extract_entry zs' fsys (Some codec) output_dir verbose s.
Proof.
  intros Hc. apply Z.eqb_neq in Hc.
  unfold extract_entry. unfold_proc. now rewrite Hc.
Qed.

Lemma extractArchive_ignores_zstd
      (zs zs' : zstd_api) (fsys : filesystem) (path output_dir : string)
      (verbose : bool) (sig rest : list byte) (version codec : Z) :
  fs_read fsys path = Some (sig ++ le_split 2 version ++ le_split 2 codec ++ rest) ->
  List.length sig = 4%nat ->
  0 <= codec < 2 ^ 16 ->
  codec <> enum_value COMPRESS_ZSTD ->
  extractArchive zs fsys path output_dir verbose
  = extractArchive zs' fsys path output_dir verbose.
Proof.
  intros Hfs Hsig Hrange Hc.
  unfold extractArchive. rewrite (opened _ _ _ Hfs).
  unfold_proc. cbn [at_ failbit ins].
  fold (at_ [] (sig ++ le_split 2 version ++ le_split 2 codec ++ rest)).
  rewrite read_scalar_bytes by assumption.
  destruct (negb (le_combine sig =? MAKAKA_SIGNATURE)); [reflexivity|].
  rewrite (read_scalar_bytes 2 (le_split 2 version)) by apply length_le_split.
  rewrite read_scalar_at by (simpl; lia).
  destruct verbose; cbn [ins shown];
    match goal with
    | |- context [read_scalar 4 ?s] => destruct (read_scalar 4 s) as [[k|] s4|ex s4|]
    end; try reflexivity;
    apply times_ext; intros s; now apply extract_entry_ignores_zstd.
Qed.

Lemma pass_through_decodes (zs : zstd_api) (codec : Z) (es : list ArchiveEntry) :
  codec <> enum_value COMPRESS_ZSTD ->
  Forall entry_fits es ->
  Forall2 (decodes zs codec) es (map payload es).
Proof.
  intros Hc. apply Z.eqb_neq in Hc.
  induction 1 as [|e es He _ IH]; cbn [map]; constructor; auto.
  split; [assumption|]. unfold decompress_switch. now rewrite Hc.
Qed.

(** C3.  An archive whose codec field is LZMA (1) is extracted without any
    use of the compression library: whatever follows the codec field, the
    run is the same for every libzstd, and on a well-formed archive whose
    destinations the file system takes, each file receives the stored
    payload bytes as they are.  With codec field ZSTD (2) an entry is decoded
    by [decompressZSTD] on its payload with its [original_size] as the
    expected length; a failure of that call is raised, and its result is
    what goes to the destination. *)
Theorem extractArchive_lzma_is_pass_through
        (zs : zstd_api) (fsys : filesystem) (path output_dir : string)
        (verbose : bool) (sig rest : list byte) (version : Z) :
  List.length sig = 4%nat ->
  fs_read fsys path
  = Some (sig ++ le_split 2 version
              ++ le_split 2 (enum_value COMPRESS_LZMA) ++ rest) ->
  (forall zs', extractArchive zs' fsys path output_dir verbose
               = extractArchive zs fsys path output_dir verbose)
  /\ (forall es,
         sig = le_split 4 MAKAKA_SIGNATURE ->
         rest = le_split 4 (Z.of_nat (List.length es)) ++ encode_entries es ->
         header_fits version (enum_value COMPRESS_LZMA) es ->
         Forall entry_fits es ->
         output_accepts fsys output_dir (combine (map name es) (map payload es)) [] ->
         extractArchive zs fsys path output_dir verbose
         = Ret tt {| ins := at_ (encode_archive version (enum_value COMPRESS_LZMA) es) [];
                     shown := (if verbose
                               then header_shown version (enum_value COMPRESS_LZMA)
                                                 (Z.of_nat (List.length es))
                               else [])
                                ++ extracted_all output_dir verbose es (map payload es) |})
  /\ (forall e before after t,
         entry_fits e ->
         extract_entry zs fsys (Some (enum_value COMPRESS_ZSTD)) output_dir verbose
                       {| ins := at_ before (encode_entry e ++ after); shown := t |}
         = match decompressZSTD zs (payload e) (original_size e) with
           | inr file_data =>
               write_file fsys output_dir (name e) file_data
                          {| ins := at_ (before ++ encode_entry e) after;
                             shown := t ++ announced verbose e |}
           | inl ex =>
               Throw ex {| ins := at_ (before ++ encode_entry e) after;
                           shown := t ++ announced verbose e |}
           end).
Proof.
  intros Hsig Hfs. split; [|split].
  - intros zs'.
    eapply extractArchive_ignores_zstd; [exact Hfs | exact Hsig | | ]; cbn; lia.
  - intros es -> -> Hhdr Hfit Hacc.
    apply extractArchive_well_formed;
      [ rewrite Hfs; unfold encode_archive, encode_header;
        now rewrite <- !app_assoc
      | assumption
      | apply pass_through_decodes; [cbn; lia | assumption]
      | assumption ].
  - intros e before after t He. now rewrite extract_entry_run.
Qed.

(** ** Listing against extraction *)

Lemma reported_listed (es : list ArchiveEntry) :
  flat_map reported (map listed es) = map triple es.
Proof.
  induction es as [|e es IH]; [reflexivity|].
  cbn [map flat_map]. now rewrite IH.
Qed.




(** What a quiet extraction shows when every payload goes out as it is. *)
Lemma pass_through_written (output_dir : string) (es : list ArchiveEntry) :
  extracted_all output_dir false es (map payload es)
  = flat_map (fun e => written output_dir (name e, payload e)) es.
Proof.
  unfold extracted_all. induction es as [|e es IH]; [reflexivity|].
  cbn [map combine flat_map fst snd extracted announced app]. f_equal. f_equal.
  exact IH.
Qed.

(** C10, as the program behaves.  A well-formed archive whose codec field
    is any 16-bit value other than ZSTD (2) is accepted by both readers:
    [listArchiveContents] prints LZMA for the value 1 and None for every
    other value, and [extractArchive] sends every payload unchanged to its
    destination; it completes when the file system takes every
    destination. *)
Theorem readers_accept_any_codec_but_zstd
        (zs : zstd_api) (fsys : filesystem) (path output_dir : string)
        (version codec : Z) (es : list ArchiveEntry) :
  fs_read fsys path = Some (encode_archive version codec es) ->
  header_fits version codec es ->
  Forall entry_fits es ->
  size (encode_archive version codec es) < 2 ^ 63 ->
  codec <> enum_value COMPRESS_ZSTD ->
  (output_accepts fsys output_dir (combine (map name es) (map payload es)) [] ->
   extractArchive zs fsys path output_dir false
   = Ret tt {| ins := at_ (encode_archive version codec es) [];
               shown := flat_map (fun e => written output_dir (name e, payload e)) es |})
  /\ listArchiveContents fsys path
     = Ret tt {| ins := at_ (encode_archive version codec es) [];
                 shown := [Cout_archive path;
                           Cout_version (Z.shiftr version 8) (Z.land version 0xFF);
                           Cout_compression
                             (if codec =? enum_value COMPRESS_LZMA then "LZMA" else "None");
                           Cout_files (Z.of_nat (List.length es))]
                            ++ map listed es |}.
Proof.
  intros Hfs Hhdr Hfit Hsize Hc. split.
  - intros Hacc.
    rewrite (extractArchive_well_formed zs fsys path output_dir false version codec
                                        es (map payload es))
      by (try assumption; now apply pass_through_decodes).
    cbn [app]. now rewrite pass_through_written.
  - rewrite (listArchiveContents_well_formed fsys path version codec es)
      by assumption.
    unfold header_shown, compression_label. apply Z.eqb_neq in Hc. now rewrite Hc.
Qed.

(** ** The stand-in libzstd honours the contract *)

Lemma stored_bound_room (n : Z) : 0 <= n -> n + 4 <= Stored.compressBound n.
Proof.
  intros Hn. unfold Stored.compressBound.
  rewrite !Z.shiftr_div_pow2 by lia.
  change (2 ^ 8) with 256. change (2 ^ 11) with 2048.
  destruct (Z.ltb_spec n 131072).
  - pose proof (Z.div_pos n 256 Hn ltac:(lia)).
    assert (0 <= (131072 - n) / 2048) by (apply Z.div_pos; lia).
    destruct (Z_lt_le_dec n 1024).
    + assert (63 <= (131072 - n) / 2048)
        by (apply Z.div_le_lower_bound; lia).
      lia.
    + assert (4 <= n / 256) by (apply Z.div_le_lower_bound; lia). lia.
  - assert (512 <= n / 256) by (apply Z.div_le_lower_bound; lia). lia.
Qed.

Lemma stored_bound_fits (n : Z) :
  0 <= n < 2 ^ 62 -> 0 <= Stored.compressBound n <= vector_max_size.
Proof.
  intros Hn. unfold Stored.compressBound, vector_max_size.
  rewrite !Z.shiftr_div_pow2 by lia.
  change (2 ^ 8) with 256. change (2 ^ 11) with 2048.
  assert (0 <= n / 256 <= n)
    by (split; [apply Z.div_pos; lia | apply Z.div_le_upper_bound; lia]).
  destruct (Z.ltb_spec n 131072).
  - assert (0 <= (131072 - n) / 2048 <= 64)
      by (split; [apply Z.div_pos; lia | apply Z.div_le_upper_bound; lia]).
    lia.
  - lia.
Qed.

Lemma stored_zstd_sound : zstd_sound Stored.zstd.
Proof.
  constructor; cbn [ZSTD_compressBound ZSTD_isError ZSTD_compress
                    ZSTD_decompress Stored.zstd].
  - apply stored_bound_fits.
  - intros n Hn. unfold vector_max_size in Hn. apply Z.ltb_ge. lia.
  - intros src cap level Hcap. exists (Stored.zstd_magic ++ src).
    pose proof (stored_bound_room (size src) (size_nonneg src)).
    assert (Hsz : size (Stored.zstd_magic ++ src) = size src + 4)
      by (rewrite size_app; change (size Stored.zstd_magic) with 4; lia).
    unfold Stored.compress.
    destruct (Z.leb_spec (size (Stored.zstd_magic ++ src)) cap); [|lia].
    split; [reflexivity | assumption].
  - intros src cap level frame room Hc Hroom.
    unfold Stored.compress in Hc.
    destruct (size (Stored.zstd_magic ++ src) <=? cap).
    + injection Hc as _ <-. unfold Stored.decompress.
      cbn [Stored.zstd_magic app firstn skipn].
      change (Stored.bytes_eqb _ _) with true. cbn iota.
      destruct (Z.leb_spec (size src) room); [reflexivity | lia].
    + injection Hc as Hsz <-. cbn in Hsz. discriminate Hsz.
Qed.

(** ** The LZMA wrapper *)

Lemma clipped (produced : list byte) (cap : nat) :
  resize (Z.min (size produced) (Z.of_nat cap))
         (store produced (repeat Byte.x00 cap))
  = firstn cap produced.
Proof.
  destruct (Nat.le_gt_cases (List.length produced) cap) as [Hle | Hgt].
  - rewrite Z.min_l by (unfold size; lia).
    rewrite store_short by (now rewrite repeat_length).
    now rewrite resize_prefix, firstn_all2.
  - rewrite Z.min_r by (unfold size; lia).
    unfold store. rewrite repeat_length.
    rewrite (skipn_all2 (repeat Byte.x00 cap)) by (rewrite repeat_length; lia).
    rewrite app_nil_r. apply resize_whole.
    unfold size. rewrite length_firstn. lia.
Qed.

Lemma compressWithLZMA_value (lz : lzma_api) (input : list byte) :
  lzma_ret_is_ok
    (lzma_easy_encoder lz (Z.lor 9 LZMA_PRESET_EXTREME) LZMA_CHECK_CRC64) = true ->
  3 * size input / 2 <= vector_max_size ->
  compressWithLZMA lz input
  = inr (firstn (Z.to_nat (3 * size input / 2))
                (snd (lzma_code lz input (3 * size input / 2)))).
Proof.
  intros Hinit Hcap. unfold compressWithLZMA.
  rewrite Hinit, new_vector_fits by assumption.
  assert (0 <= 3 * size input / 2)
    by (apply Z.div_pos; [pose proof (size_nonneg input)|]; lia).
  rewrite size_repeat, Z2Nat.id by assumption.
  destruct (lzma_code lz input (3 * size input / 2)) as [status produced].
  cbn [snd]. f_equal.
  rewrite <- (Z2Nat.id (3 * size input / 2)) at 1 by assumption.
  apply clipped.
Qed.

Lemma compressWithLZMA_inr (lz : lzma_api) (input stored : list byte) :
  compressWithLZMA lz input = inr stored ->
  stored = firstn (Z.to_nat (3 * size input / 2))
                  (snd (lzma_code lz input (3 * size input / 2))).
Proof.
  intros H.
  destruct (lzma_ret_is_ok
              (lzma_easy_encoder lz (Z.lor 9 LZMA_PRESET_EXTREME) LZMA_CHECK_CRC64))
    eqn:Hinit.
  - destruct (Z.leb_spec (3 * size input / 2) vector_max_size) as [Hcap | Hcap].
    + rewrite compressWithLZMA_value in H by assumption. now injection H.
    + unfold compressWithLZMA, new_vector in H. rewrite Hinit in H.
      destruct (Z.ltb_spec vector_max_size (3 * size input / 2)); [discriminate H | lia].
  - unfold compressWithLZMA in H. rewrite Hinit in H. discriminate H.
Qed.

(** C8.  Once the encoder is initialised, [compressWithLZMA] returns
    normally whatever status [lzma_code] reports: its result is the output
    of the call cut to the buffer of one and a half times the input, also
    when the status is an error or the stream is not finished. *)
Theorem compressWithLZMA_drops_the_status (lz : lzma_api) (input : list byte) :
  lzma_ret_is_ok
    (lzma_easy_encoder lz (Z.lor 9 LZMA_PRESET_EXTREME) LZMA_CHECK_CRC64) = true ->
  3 * size input / 2 <= vector_max_size ->
  forall status produced,
    lzma_code lz input (3 * size input / 2) = (status, produced) ->
    compressWithLZMA lz input
    = inr (firstn (Z.to_nat (3 * size input / 2)) produced).
Proof.
  intros Hinit Hcap status produced Hcode.
  rewrite compressWithLZMA_value by assumption. now rewrite Hcode.
Qed.

(** C4 on the code.  What was packed with LZMA comes back from the
    extractor's choice of codec as the compressed bytes, not as the input:
    there is no LZMA decompression, and the stored bytes are at most one
    and a half times as long as the input. *)
Theorem lzma_payload_comes_back_compressed
        (lz : lzma_api) (zs : zstd_api) (b stored : list byte) :
  compress_switch lz zs COMPRESS_LZMA b = inr stored ->
  decompress_switch zs (enum_value COMPRESS_LZMA) stored (size b) = inr stored
  /\ size stored <= 3 * size b / 2.
Proof.
  cbn [compress_switch]. intros H. split; [reflexivity|].
  apply compressWithLZMA_inr in H. subst stored.
  assert (0 <= 3 * size b / 2)
    by (apply Z.div_pos; [pose proof (size_nonneg b)|]; lia).
  unfold size at 1. rewrite length_firstn. lia.
Qed.

(** ** Packing without compression *)

Lemma stored_entry_none (lz : lzma_api) (zs : zstd_api) (fsys : filesystem)
      (files : list string) :
  flat_map (stored_entry lz zs fsys COMPRESS_NONE) files
  = flat_map (raw_entry fsys) files.
Proof.
  apply flat_map_ext. intros p. unfold stored_entry, raw_entry.
  now destruct (fs_read fsys p).
Qed.

Lemma raw_fits_packable (lz : lzma_api) (zs : zstd_api) (fsys : filesystem)
      (files : list string) :
  Forall (raw_fits fsys) files ->
  Forall (packable lz zs fsys COMPRESS_NONE) files.
Proof.
  apply Forall_impl. intros p. unfold raw_fits, packable.
  destruct (fs_read fsys p) as [d|]; [|trivial].
  intros [Hname Hsize]. repeat split; try lia.
  exists d. split; [reflexivity | lia].
Qed.

Lemma raw_entries_fit (fsys : filesystem) (files : list string) :
  Forall (raw_fits fsys) files ->
  Forall (fun e => entry_fits e
                   /\ compressed_size e = original_size e
                   /\ fs_read fsys (name e) = Some (payload e))
         (flat_map (raw_entry fsys) files).
Proof.
  induction 1 as [|p files Hp _ IH]; cbn [flat_map]; [constructor|].
  apply Forall_app. split; [|assumption].
  unfold raw_fits, raw_entry in *.
  destruct (fs_read fsys p) as [d|] eqn:Hread; constructor; [|constructor].
  destruct Hp as [Hname Hsize]. pose proof (size_nonneg d).
  unfold entry_fits, compressed_size. cbn [name original_size payload].
  repeat split; try lia. exact Hread.
Qed.

Lemma raw_entries_count (fsys : filesystem) (files : list string) :
  Forall (fun p => fs_read fsys p <> None) files ->
  List.length (flat_map (raw_entry fsys) files) = List.length files.
Proof.
  induction 1 as [|p files Hp _ IH]; cbn [flat_map]; [reflexivity|].
  rewrite length_app, IH. unfold raw_entry.
  destruct (fs_read fsys p); [reflexivity | contradiction].
Qed.

(** C9.  Packed without compression, every readable file becomes an entry
    whose two size fields are equal and whose payload is the file's bytes;
    an empty file gives the sizes 0 and 0 and no payload byte.  When every
    path was readable and the file system takes every destination,
    extraction writes each file back with those bytes, so an empty file
    comes back empty. *)
Theorem none_codec_stores_raw_bytes
        (lz : lzma_api) (zs : zstd_api) (fsys : filesystem)
        (files : list string) (output_path : string) :
  fs_create fsys output_path = true ->
  Forall (raw_fits fsys) files ->
  let es := flat_map (raw_entry fsys) files in
  let archive :=
    encode_header MAKAKA_VERSION 0 (Z.of_nat (List.length files) mod 2 ^ 32)
                  ++ encode_entries es in
  createArchive lz zs fsys files output_path COMPRESS_NONE
  = Ret tt {| out := archive; warned := flat_map (skipped fsys) files |}
  /\ Forall (fun e => compressed_size e = original_size e
                      /\ fs_read fsys (name e) = Some (payload e)) es
  /\ (forall (fsys' : filesystem) (archive_path output_dir : string),
         Z.of_nat (List.length files) < 2 ^ 32 ->
         Forall (fun p => fs_read fsys p <> None) files ->
         fs_read fsys' archive_path = Some archive ->
         output_accepts fsys' output_dir (combine (map name es) (map payload es)) [] ->
         exists r,
           extractArchive zs fsys' archive_path output_dir false = Ret tt r
           /\ shown r = flat_map (fun e => written output_dir (name e, payload e)) es).
Proof.
  intros Hcreate Hfits es archive. subst es archive.
  pose proof (raw_entries_fit fsys files Hfits) as Hes.
  split; [|split].
  - rewrite (createArchive_layout lz zs fsys files output_path COMPRESS_NONE)
      by (try assumption; now apply raw_fits_packable).
    now rewrite stored_entry_none.
  - eapply Forall_impl; [|exact Hes]. cbv beta. tauto.
  - intros fsys' archive_path output_dir Hcount Hall Hread Hacc.
    rewrite Z.mod_small, <- (raw_entries_count fsys files Hall) in Hread by lia.
    assert (Hfit : Forall entry_fits (flat_map (raw_entry fsys) files))
      by (eapply Forall_impl; [|exact Hes]; cbv beta; tauto).
    eexists. split.
    + eapply (extractArchive_well_formed zs fsys' archive_path output_dir false
                                         MAKAKA_VERSION 0);
        [exact Hread
        |
        | apply pass_through_decodes; [cbn; lia | exact Hfit]
        | exact Hacc].
      unfold header_fits, MAKAKA_VERSION.
      rewrite (raw_entries_count fsys files Hall). lia.
    + cbn [shown app]. apply pass_through_written.
Qed.

(** ** Concrete runs *)

(** The stand-in file system takes the given files. *)
Ltac accept_outputs := vm_compute; repeat split.

(** C2 on the code.  Packing [valid.txt; missing.txt] warns about the
    missing file and goes on, but the header was written before the loop
    with the length of the list: the archive says 2 entries and holds one.
    Both readers then read a second entry past the end of the file. *)
Theorem createArchive_counts_skipped_paths (lz : lzma_api) (zs : zstd_api) :
  createArchive lz zs one_file_disk ["valid.txt"; "missing.txt"] "out.makaka"
                COMPRESS_NONE
  = Ret tt {| out := miscounted_archive; warned := [Cerr_skipping "missing.txt"] |}
  /\ le_combine (firstn 4 (skipn 8 miscounted_archive)) = 2
  /\ listArchiveContents (Stored.disk [("out.makaka", miscounted_archive)]) "out.makaka"
     = Undef
  /\ extractArchive zs (Stored.disk [("out.makaka", miscounted_archive)])
                    "out.makaka" "." false
     = Undef.
Proof. repeat split; vm_compute; reflexivity. Qed.

(** *** An archive cut inside a payload *)

(** C7, the claim on the code: both readers complete on the truncated
    stream.  Extraction writes [a] with the two bytes it could read and
    three zero bytes; listing prints the entry and seeks past the end. *)
Lemma truncated_archive_is_accepted :
  extractArchive Stored.zstd truncated_disk "cut.makaka" "out" false
  = Ret tt {| ins := {| data := truncated_archive; pos := 35; failbit := true |};
              shown := [Directories_created "out" "a";
                        File_written "out" "a"
                                     (list_byte_of_string "hi"
                                        ++ [Byte.x00; Byte.x00; Byte.x00])] |}
  /\ listArchiveContents truncated_disk "cut.makaka"
     = Ret tt {| ins := {| data := truncated_archive; pos := 38; failbit := false |};
                 shown := [Cout_archive "cut.makaka"; Cout_version 1 0;
                           Cout_compression "None"; Cout_files 1;
                           Cout_entry "a" 5 5] |}.
Proof. split; vm_compute; reflexivity. Qed.

Lemma truncation_is_not_a_format_error_witness :
  (forall s, extractArchive Stored.zstd (Stored.disk [("short.makaka", cut_header)])
                            "short.makaka" "out" false <> Throw FormatError s)
  /\ (forall s, listArchiveContents (Stored.disk [("short.makaka", cut_header)])
                                    "short.makaka" <> Throw FormatError s)
  /\ extractArchive Stored.zstd (Stored.disk [("short.makaka", cut_header)])
                    "short.makaka" "out" false = Undef
  /\ listArchiveContents (Stored.disk [("short.makaka", cut_header)]) "short.makaka"
     = Undef.
Proof.
  destruct (truncation_is_not_a_format_error
              Stored.zstd (Stored.disk [("short.makaka", cut_header)])
              "short.makaka" "out" false (le_split 2 MAKAKA_VERSION) eq_refl)
    as (Hextract & Hlist & Hcut).
  split; [exact Hextract | split; [exact Hlist | apply Hcut; reflexivity]].
Defined.

(** *** Archives tagged LZMA and with an unknown codec *)

(** C10, the claim on the code: the codec field 1 is not ZSTD, and the
    listing names it LZMA, not None. *)
Lemma lzma_archive_is_listed_as_lzma :
  listArchiveContents (Stored.disk [("l.makaka", empty_lzma_archive)]) "l.makaka"
  = Ret tt {| ins := {| data := empty_lzma_archive; pos := 12; failbit := false |};
              shown := [Cout_archive "l.makaka"; Cout_version 1 0;
                        Cout_compression "LZMA"; Cout_files 0] |}.
Proof. vm_compute. reflexivity. Qed.

Lemma xz_entry_fits : Forall entry_fits [xz_entry].
Proof. repeat constructor; vm_compute; congruence. Qed.

Lemma readers_accept_any_codec_but_zstd_witness :
  extractArchive Stored.zstd (Stored.disk [("u.makaka", codec7_archive)])
                 "u.makaka" "out" false
  = Ret tt {| ins := at_ codec7_archive [];
              shown := [Directories_created "out" "a";
                        File_written "out" "a" Stored.xz_magic] |}
  /\ listArchiveContents (Stored.disk [("u.makaka", codec7_archive)]) "u.makaka"
     = Ret tt {| ins := at_ codec7_archive [];
                 shown := [Cout_archive "u.makaka"; Cout_version 1 0;
                           Cout_compression "None"; Cout_files 1;
                           Cout_entry "a" 5 6] |}.
Proof.
  assert (Hhdr : header_fits MAKAKA_VERSION 7 [xz_entry])
    by (repeat split; vm_compute; congruence).
  assert (Hc : 7 <> enum_value COMPRESS_ZSTD) by discriminate.
  destruct (readers_accept_any_codec_but_zstd
              Stored.zstd (Stored.disk [("u.makaka", codec7_archive)])
              "u.makaka" "out" MAKAKA_VERSION 7 [xz_entry]
              eq_refl Hhdr xz_entry_fits eq_refl Hc) as [Hextract Hlist].
  split; [apply Hextract; accept_outputs | exact Hlist].
Defined.

Lemma extractArchive_lzma_is_pass_through_witness :
  extractArchive Stored.zstd (Stored.disk [("x.makaka", lzma_archive)])
                 "x.makaka" "out" true
  = Ret tt {| ins := at_ lzma_archive [];
              shown := [Cout_version 1 0; Cout_compression "LZMA"; Cout_files 1;
                        Cout_extracting "a" 5 6;
                        Directories_created "out" "a";
                        File_written "out" "a" Stored.xz_magic] |}.
Proof.
  assert (Hhdr : header_fits MAKAKA_VERSION (enum_value COMPRESS_LZMA) [xz_entry])
    by (repeat split; vm_compute; congruence).
  assert (Hacc : output_accepts (Stored.disk [("x.makaka", lzma_archive)]) "out"
                                (combine (map name [xz_entry]) (map payload [xz_entry]))
                                [])
    by accept_outputs.
  exact (proj1 (proj2 (extractArchive_lzma_is_pass_through
                         Stored.zstd (Stored.disk [("x.makaka", lzma_archive)])
                         "x.makaka" "out" true
                         (le_split 4 MAKAKA_SIGNATURE)
                         (le_split 4 1 ++ encode_entries [xz_entry])
                         MAKAKA_VERSION eq_refl eq_refl))
               [xz_entry] eq_refl eq_refl Hhdr xz_entry_fits Hacc).
Defined.

(** *** A ZSTD archive *)



(** *** Packing and extracting two files, one of them empty *)

Lemma two_files_held :
  Forall2 (holds two_files_disk) ["a.txt"; "empty.bin"] [hello; []].
Proof. repeat constructor. Qed.

Lemma extract_createArchive_round_trip_witness :
  exists w,
    createArchive Stored.lzma Stored.zstd two_files_disk ["a.txt"; "empty.bin"]
                  "out.makaka" COMPRESS_ZSTD = Ret tt w
    /\ exists r,
        extractArchive Stored.zstd (Stored.disk [("out.makaka", out w)])
                       "out.makaka" "restored" false = Ret tt r
        /\ shown r = [Directories_created "restored" "a.txt";
                      File_written "restored" "a.txt" hello;
                      Directories_created "restored" "empty.bin";
                      File_written "restored" "empty.bin" []].
Proof.
  assert (Hfresh : ~ In "out.makaka" ["a.txt"; "empty.bin"])
    by (intros [H | [H | []]]; discriminate H).
  destruct (extract_createArchive_round_trip
              Stored.lzma Stored.zstd two_files_disk
              ["a.txt"; "empty.bin"] [hello; []] "out.makaka" COMPRESS_ZSTD
              stored_zstd_sound (or_intror eq_refl) eq_refl Hfresh eq_refl
              two_files_held) as (w & Hpack & Hextract).
  exists w. split; [exact Hpack|].
  apply (Hextract (Stored.disk [("out.makaka", out w)]) "out.makaka" "restored").
  - reflexivity.
  - accept_outputs.
Defined.

Lemma two_files_fit : Forall (raw_fits two_files_disk) ["empty.bin"].
Proof. repeat constructor. Qed.

Lemma none_codec_stores_raw_bytes_witness :
  createArchive Stored.lzma Stored.zstd two_files_disk ["empty.bin"] "e.makaka"
                COMPRESS_NONE
  = Ret tt {| out := empty_file_archive; warned := [] |}
  /\ compressed_size empty_entry = 0
  /\ exists r,
      extractArchive Stored.zstd (Stored.disk [("e.makaka", empty_file_archive)])
                     "e.makaka" "out" false = Ret tt r
      /\ shown r = [Directories_created "out" "empty.bin";
                    File_written "out" "empty.bin" []].
Proof.
  destruct (none_codec_stores_raw_bytes
              Stored.lzma Stored.zstd two_files_disk ["empty.bin"] "e.makaka"
              eq_refl two_files_fit) as (Hout & _ & Hextract).
  split; [exact Hout | split; [reflexivity|]].
  apply (Hextract (Stored.disk [("e.makaka", empty_file_archive)]) "e.makaka" "out").
  - reflexivity.
  - repeat constructor; discriminate.
  - reflexivity.
  - accept_outputs.
Defined.

(** *** A rejected stream *)

Lemma bad_signature_is_rejected_witness :
  extractArchive Stored.zstd (Stored.disk [("f.zip", zip_bytes)]) "f.zip" "out" true
  = Throw FormatError
          {| ins := {| data := zip_bytes; pos := 4; failbit := false |}; shown := [] |}
  /\ listArchiveContents (Stored.disk [("f.zip", zip_bytes)]) "f.zip"
     = Throw FormatError
             {| ins := {| data := zip_bytes; pos := 4; failbit := false |}; shown := [] |}.
Proof.
  apply (bad_signature_is_rejected
           Stored.zstd (Stored.disk [("f.zip", zip_bytes)]) "f.zip" "out" true zip_bytes).
  - reflexivity.
  - vm_compute. lia.
  - vm_compute. discriminate.
Defined.

(** *** One byte through LZMA *)

Lemma compressWithLZMA_drops_the_status_witness :
  lzma_code Stored.lzma [Byte.x41] 1 = (LZMA_OK, [Byte.xfd])
  /\ compressWithLZMA Stored.lzma [Byte.x41] = inr [Byte.xfd].
Proof.
  split; [reflexivity|].
  apply (compressWithLZMA_drops_the_status Stored.lzma [Byte.x41]
                                           eq_refl ltac:(vm_compute; discriminate)
                                           LZMA_OK [Byte.xfd] eq_refl).
Defined.

Lemma lzma_payload_comes_back_compressed_witness :
  compress_switch Stored.lzma Stored.zstd COMPRESS_LZMA [Byte.x41] = inr [Byte.xfd]
  /\ decompress_switch Stored.zstd (enum_value COMPRESS_LZMA) [Byte.xfd] 1
     = inr [Byte.xfd]
  /\ size [Byte.xfd] <= 1.
Proof.
  split; [reflexivity|].
  apply (lzma_payload_comes_back_compressed
           Stored.lzma Stored.zstd [Byte.x41] [Byte.xfd] eq_refl).
Defined.

(** * Further properties of the codecs and of the three operations *)

(** ** Definitions *)

(** A libzstd whose bound leaves no room for the frame header, so that
    every compression fails with "destination too small". *)
Definition cramped_zstd : zstd_api := {|
  ZSTD_compressBound := fun n => n;
  ZSTD_maxCLevel := ZSTD_maxCLevel Stored.zstd;
  ZSTD_compress := ZSTD_compress Stored.zstd;
  ZSTD_decompress := ZSTD_decompress Stored.zstd;
  ZSTD_isError := ZSTD_isError Stored.zstd;
  ZSTD_getErrorName := ZSTD_getErrorName Stored.zstd
|}.

(** A frame of two bytes, and an entry that declares five for it. *)
Definition short_frame : list byte := Stored.zstd_magic ++ list_byte_of_string "hi".

(** An entry whose payload is no ZSTD frame. *)
Definition corrupt_entry : ArchiveEntry :=
  {| name := "b.txt"; original_size := 3; payload := list_byte_of_string "xyz" |}.

Definition half_corrupt_archive : list byte :=
  encode_archive MAKAKA_VERSION 2 [zstd_entry; corrupt_entry; zstd_entry].

(** Uncompressed entries whose names meet: [a] is a file for one and a
    directory for the other. *)
Definition entry_a : ArchiveEntry :=
  {| name := "a"; original_size := 5; payload := hello |}.

Definition entry_a_b : ArchiveEntry :=
  {| name := "a/b"; original_size := 2; payload := list_byte_of_string "hi" |}.

Definition entry_c : ArchiveEntry :=
  {| name := "c"; original_size := 0; payload := [] |}.

(** The file [a] first, then a file below it. *)
Definition file_then_directory : list byte :=
  encode_archive MAKAKA_VERSION 0 [entry_a; entry_a_b; entry_c].

(** The file below [a] first, then [a] as a file. *)
Definition directory_then_file : list byte :=
  encode_archive MAKAKA_VERSION 0 [entry_a_b; entry_a; entry_c].

(** The size of a file of the file system; 0 for a path that cannot be
    read. *)
Definition file_size (fsys : filesystem) (file_path : string) : Z :=
  match fs_read fsys file_path with
  | Some file_data => size file_data
  | None => 0
  end.

(** The writer's state after [s]: bytes were only appended to [out]. *)
Definition appended (s : writer) (o : outcome writer unit) : Prop :=
  match o with
  | Ret _ s' | Throw _ s' => exists more, out s' = out s ++ more
  | Undef => False
  end.

(** A line of a listing: neither a file written nor a line of an
    extraction. *)
Definition is_listing_line (ev : event) : Prop :=
  match ev with
  | Cout_archive _ | Cout_version _ _ | Cout_compression _
  | Cout_files _ | Cout_entry _ _ _ => True
  | _ => False
  end.

(** What [c] adds to the effects of a reader satisfies [P]. *)
Definition shows_only {A : Type} (P : event -> Prop) (c : M reader A) : Prop :=
  forall s,
    match c s with
    | Ret _ s' | Throw _ s' =>
        exists more, shown s' = shown s ++ more /\ Forall P more
    | Undef => True
    end.

(** ** The command line (lines 228-295) *)

Record ProgramOptions : Type := {
  command : string;
  files : list string;
  output_path : string;
  compression : CompressionType;
  verbose : bool
}.

Definition usage : string :=
  "Usage:
  pack <files...> -o <output.makaka> [-c lzma|zstd]
  unpack <archive.makaka> [-o output_dir] [-v]
  list <archive.makaka>".

(** [arg[0] != '-']; the first character of an empty [std::string] is the
    terminating null character. *)
Definition no_dash (arg : string) : bool :=
  match arg with
  | String c _ => negb (Ascii.eqb c "-")
  | EmptyString => true
  end.

(** The last two branches of the loop of [parseArguments] (lines 257-261). *)
Definition flag_or_file (arg : string) (options : ProgramOptions) : ProgramOptions :=
  if String.eqb arg "-v"
  then {| command := command options; files := files options;
          output_path := output_path options;
          compression := compression options; verbose := true |}
  else if no_dash arg
       then {| command := command options; files := files options ++ [arg];
               output_path := output_path options;
               compression := compression options; verbose := verbose options |}
       else options.

(** The loop of [parseArguments] (lines 248-262) over the arguments from
    [argv[i]] on; [i + 1 < argc] holds when another argument follows. *)
Fixpoint parse_loop (args : list string) (options : ProgramOptions)
  : result ProgramOptions :=
  match args with
  | [] => inr options
  | arg :: rest =>
      match rest with
      | next :: rest' =>
          if String.eqb arg "-o"
          then parse_loop rest'
                          {| command := command options; files := files options;
                             output_path := next;
                             compression := compression options;
                             verbose := verbose options |}
          else if String.eqb arg "-c"
               then
                 if String.eqb next "lzma"
                 then parse_loop rest'
                                 {| command := command options; files := files options;
                                    output_path := output_path options;
                                    compression := COMPRESS_LZMA;
                                    verbose := verbose options |}
                 else if String.eqb next "zstd"
                      then parse_loop rest'
                                      {| command := command options;
                                         files := files options;
                                         output_path := output_path options;
                                         compression := COMPRESS_ZSTD;
                                         verbose := verbose options |}
                      else inl (runtime_error "Unknown compression method")
               else parse_loop rest (flag_or_file arg options)
      | [] => parse_loop rest (flag_or_file arg options)
      end
  end.

(** Lines 236-264; [argv] holds the [argc] arguments, the program's name
    first. *)
Definition parseArguments (argv : list string) : result ProgramOptions :=
  match argv with
  | _ :: cmd :: args =>
      parse_loop args
                 {| command := cmd; files := []; output_path := "";
                    compression := COMPRESS_ZSTD; verbose := false |}
  | _ => inl (runtime_error usage)
  end.

(** What a run of the program prints beside the effects of the operation
    it calls. *)
Inductive terminal : Type :=
| Effect (e : event)
| Cout_created (output : string)
| Cout_extracted_to (output_dir : string)
| Cerr_error (what : string).

(** [e.what()]. *)
Definition what_of (e : exn) : string :=
  match e with
  | runtime_error what => what
  | length_error what => what
  | filesystem_error what => what
  end.

(** A run of [main]: the value returned, what was printed and written in
    order, and the archive file the run created with its bytes. *)
Inductive finished : Type :=
| Exited (code : Z) (printed : list terminal) (archive : option (string * list byte))
| Undefined.

(** Lines 266-295. *)
Definition main (lz : lzma_api) (zs : zstd_api) (fsys : filesystem)
           (argv : list string) : finished :=
  match parseArguments argv with
  | inl e => Exited 1 [Cerr_error (what_of e)] None
  | inr options =>
      if String.eqb (command options) "pack"
      then
        match files options with
        | [] => Exited 1 [Cerr_error "No input files specified"] None
        | _ :: _ =>
            let output :=
              if String.eqb (output_path options) "" then "archive.makaka"
              else output_path options in
            match createArchive lz zs fsys (files options) output
                                (compression options) with
            | Ret _ w =>
                Exited 0 (map Effect (warned w) ++ [Cout_created output])
                       (Some (output, out w))
            | Throw e w =>
                Exited 1 (map Effect (warned w) ++ [Cerr_error (what_of e)])
                       (if fs_create fsys output then Some (output, out w) else None)
            | Undef => Undefined
            end
        end
      else if String.eqb (command options) "unpack"
      then
        match files options with
        | [] => Exited 1 [Cerr_error "No archive specified"] None
        | archive_path :: _ =>
            let output_dir :=
              if String.eqb (output_path options) "" then "."
              else output_path options in
            match extractArchive zs fsys archive_path output_dir (verbose options) with
            | Ret _ r =>
                Exited 0 (map Effect (shown r) ++ [Cout_extracted_to output_dir]) None
            | Throw e r =>
                Exited 1 (map Effect (shown r) ++ [Cerr_error (what_of e)]) None
            | Undef => Undefined
            end
        end
      else if String.eqb (command options) "list"
      then
        match files options with
        | [] => Exited 1 [Cerr_error "No archive specified"] None
        | archive_path :: _ =>
            match listArchiveContents fsys archive_path with
            | Ret _ r => Exited 0 (map Effect (shown r)) None
            | Throw e r =>
                Exited 1 (map Effect (shown r) ++ [Cerr_error (what_of e)]) None
            | Undef => Undefined
            end
        end
      else Exited 1 [Cerr_error ("Unknown command: " ++ command options)%string] None
  end.

(** ** [decompressZSTD] and the declared size *)

Lemma skipn_zeros (k n : nat) :
  skipn k (repeat Byte.x00 n) = repeat Byte.x00 (n - k).
Proof.
  revert n. induction k as [|k IH]; intros [|n]; cbn; auto.
Qed.

Lemma store_length (written buf : list byte) :
  List.length (store written buf) = List.length buf.
Proof.
  unfold store. rewrite length_app, length_firstn, length_skipn. lia.
Qed.

(** X1.  Whenever [decompressZSTD] returns, its result has exactly the
    declared [original_size] bytes, whatever count the library returned: a
    frame that holds fewer bytes comes back followed by zero bytes, and the
    mismatch is not an error. *)
Theorem decompressZSTD_keeps_the_declared_size
        (zs : zstd_api) (input output : list byte) (original_size : Z) :
  0 <= original_size ->
  decompressZSTD zs input original_size = inr output ->
  size output = original_size
  /\ forall code produced,
      ZSTD_decompress zs original_size input = (code, produced) ->
      size produced <= original_size ->
      output = produced
                 ++ repeat Byte.x00 (Z.to_nat original_size - List.length produced).
Proof.
  intros Hn. unfold decompressZSTD, new_vector.
  destruct (vector_max_size <? original_size); [discriminate|].
  rewrite size_repeat, Z2Nat.id by assumption.
  destruct (ZSTD_decompress zs original_size input) as [code produced].
  destruct (ZSTD_isError zs code); [discriminate|].
  intros H. injection H as <-. split.
  - unfold size. rewrite store_length, repeat_length. lia.
  - intros code' produced' H Hlen. injection H as <- <-.
    rewrite store_short by (rewrite repeat_length; unfold size in Hlen; lia).
    f_equal. apply skipn_zeros.
Qed.

Lemma decompressZSTD_keeps_the_declared_size_witness :
  decompressZSTD Stored.zstd short_frame 5
  = inr (list_byte_of_string "hi" ++ [Byte.x00; Byte.x00; Byte.x00])
  /\ size (list_byte_of_string "hi" ++ [Byte.x00; Byte.x00; Byte.x00]) = 5.
Proof.
  split; [reflexivity|].
  apply (decompressZSTD_keeps_the_declared_size
           Stored.zstd short_frame
           (list_byte_of_string "hi" ++ [Byte.x00; Byte.x00; Byte.x00]) 5).
  - discriminate.
  - reflexivity.
Defined.

(** ** What [createArchive] leaves on [out] *)

Lemma appended_refl (s : writer) (a : unit) : appended s (Ret a s).
Proof. exists []. now rewrite app_nil_r. Qed.

Lemma appended_bind (c : M writer unit) (k : unit -> M writer unit) (s : writer) :
  appended s (c s) ->
  (forall a s', appended s' (k a s')) ->
  appended s (bind c k s).
Proof.
  intros Hc Hk. unfold bind.
  destruct (c s) as [a s1|e s1|]; [|exact Hc|exact Hc].
  destruct Hc as [m1 H1]. specialize (Hk a s1).
  destruct (k a s1) as [b s2|e s2|]; [| |exact Hk];
    destruct Hk as [m2 H2]; exists (m1 ++ m2); now rewrite H2, H1, app_assoc.
Qed.

Lemma ostream_write_appended (bytes : list byte) (s : writer) :
  appended s (ostream_write bytes s).
Proof. now exists bytes. Qed.

Lemma pack_file_appended (lz : lzma_api) (zs : zstd_api) (fsys : filesystem)
      (compression : CompressionType) (file_path : string) (s : writer) :
  appended s (pack_file lz zs fsys compression file_path s).
Proof.
  unfold pack_file. destruct (fs_read fsys file_path) as [file_data|].
  - destruct (compress_switch lz zs compression file_data) as [e|cd].
    + exists []. cbn. now rewrite app_nil_r.
    + erewrite bind_run by reflexivity. cbv zeta.
      repeat (apply appended_bind; [apply ostream_write_appended | intros]).
      apply ostream_write_appended.
  - exists []. cbn. now rewrite app_nil_r.
Qed.

Lemma pack_files_appended (lz : lzma_api) (zs : zstd_api) (fsys : filesystem)
      (compression : CompressionType) (paths : list string) :
  forall s, appended s (for_each paths (pack_file lz zs fsys compression) s).
Proof.
  induction paths as [|p paths IH]; intros s; cbn [for_each].
  - apply (appended_refl s tt).
  - apply appended_bind; [apply pack_file_appended | intros; apply IH].
Qed.

(** X2.  Once the output file is created, [createArchive] either returns
    or throws, and in both cases the file starts with the header: the
    signature, the version, the chosen codec and the number of listed
    paths.  An exception of a codec leaves that partial file behind. *)
Theorem createArchive_starts_with_the_header
        (lz : lzma_api) (zs : zstd_api) (fsys : filesystem)
        (paths : list string) (output_path : string)
        (compression : CompressionType) :
  fs_create fsys output_path = true ->
  match createArchive lz zs fsys paths output_path compression with
  | Ret _ w | Throw _ w =>
      exists more,
        out w = encode_header MAKAKA_VERSION (enum_value compression)
                              (Z.of_nat (List.length paths) mod 2 ^ 32)
                  ++ more
  | Undef => False
  end.
Proof.
  intros Hcreate. unfold createArchive. rewrite Hcreate.
  cbv beta iota zeta delta [bind ostream_write out warned].
  pose proof (pack_files_appended
                lz zs fsys compression paths
                {| out := encode_header MAKAKA_VERSION (enum_value compression)
                                        (Z.of_nat (List.length paths) mod 2 ^ 32);
                   warned := [] |}) as H.
  exact H.
Qed.

Lemma createArchive_starts_with_the_header_witness :
  createArchive Stored.lzma cramped_zstd two_files_disk ["a.txt"] "out.makaka"
                COMPRESS_ZSTD
  = Throw (runtime_error "ZSTD compression failed: Destination buffer is too small")
          {| out := encode_header MAKAKA_VERSION 2 1; warned := [] |}
  /\ exists more,
      encode_header MAKAKA_VERSION 2 1
      = encode_header MAKAKA_VERSION (enum_value COMPRESS_ZSTD)
                      (Z.of_nat (List.length ["a.txt"]) mod 2 ^ 32) ++ more.
Proof.
  split; [reflexivity|].
  exact (createArchive_starts_with_the_header
           Stored.lzma cramped_zstd two_files_disk ["a.txt"] "out.makaka"
           COMPRESS_ZSTD eq_refl).
Defined.

Lemma for_each_app {S A : Type} (xs ys : list A) (body : A -> M S unit) (s : S) :
  for_each (xs ++ ys) body s
  = bind (for_each xs body) (fun _ => for_each ys body) s.
Proof.
  revert s. induction xs as [|x xs IH]; intros s; cbn [app for_each]; [reflexivity|].
  unfold bind. destruct (body x s) as [a s1|e s1|]; [|reflexivity|reflexivity].
  rewrite IH. reflexivity.
Qed.

(** X3.  [createArchive] stops at the first file whose compression throws:
    the exception leaves the loop, the paths after it are not read, and
    [out] holds the header (which counts every listed path) and the entries
    of the paths before it. *)
Theorem createArchive_stops_at_the_first_codec_failure
        (lz : lzma_api) (zs : zstd_api) (fsys : filesystem)
        (before after : list string) (file_path output_path : string)
        (compression : CompressionType) (file_data : list byte) (e : exn) :
  fs_create fsys output_path = true ->
  Forall (packable lz zs fsys compression) before ->
  fs_read fsys file_path = Some file_data ->
  compress_switch lz zs compression file_data = inl e ->
  createArchive lz zs fsys (before ++ file_path :: after) output_path compression
  = Throw e
          {| out := encode_header
                      MAKAKA_VERSION (enum_value compression)
                      (Z.of_nat (List.length (before ++ file_path :: after)) mod 2 ^ 32)
                      ++ encode_entries
                           (flat_map (stored_entry lz zs fsys compression) before);
             warned := flat_map (skipped fsys) before |}.
Proof.
  intros Hcreate Hbefore Hread Hfail. unfold createArchive. rewrite Hcreate.
  cbv beta iota zeta delta [bind ostream_write out warned].
  rewrite for_each_app. unfold bind at 1.
  rewrite pack_files_run by assumption.
  cbn [for_each]. unfold bind at 1. unfold pack_file at 1.
  rewrite Hread. unfold bind at 1. rewrite Hfail. cbn [lift throw].
  unfold encode_header. cbn [app]. now rewrite <- !app_assoc.
Qed.

Lemma createArchive_stops_at_the_first_codec_failure_witness :
  createArchive Stored.lzma cramped_zstd two_files_disk
                ["missing.txt"; "a.txt"; "empty.bin"] "out.makaka" COMPRESS_ZSTD
  = Throw (runtime_error "ZSTD compression failed: Destination buffer is too small")
          {| out := encode_header MAKAKA_VERSION 2 3;
             warned := [Cerr_skipping "missing.txt"] |}.
Proof.
  refine (eq_trans
            (createArchive_stops_at_the_first_codec_failure
               Stored.lzma cramped_zstd two_files_disk
               ["missing.txt"] ["empty.bin"] "a.txt" "out.makaka" COMPRESS_ZSTD hello
               (runtime_error "ZSTD compression failed: Destination buffer is too small")
               eq_refl _ eq_refl eq_refl) _).
  - repeat constructor.
  - reflexivity.
Defined.

(** ** Listing what was packed *)

Lemma payload_within (es : list ArchiveEntry) (e : ArchiveEntry) :
  In e es -> size (payload e) <= size (encode_entries es).
Proof.
  induction es as [|e0 es IH]; intros Hin; [contradiction|].
  cbn [encode_entries flat_map]. fold (encode_entries es).
  rewrite size_app. destruct Hin as [-> | Hin].
  - unfold encode_entry. rewrite !size_app.
    pose proof (size_nonneg (encode_entries es)).
    pose proof (size_nonneg (le_split 4 (Z.of_nat (String.length (name e))))).
    pose proof (size_nonneg (list_byte_of_string (name e))).
    pose proof (size_nonneg (le_split 8 (original_size e))).
    pose proof (size_nonneg (le_split 8 (compressed_size e))).
    lia.
  - specialize (IH Hin). pose proof (size_nonneg (encode_entry e0)). lia.
Qed.

Lemma stored_readable (lz : lzma_api) (zs : zstd_api) (fsys : filesystem)
      (compression : CompressionType) (paths : list string) :
  Forall (packable lz zs fsys compression) paths ->
  Forall (fun p => fs_read fsys p <> None) paths ->
  let es := flat_map (stored_entry lz zs fsys compression) paths in
  List.length es = List.length paths
  /\ map name es = paths
  /\ map original_size es = map (file_size fsys) paths
  /\ Forall (fun e => Z.of_nat (String.length (name e)) < 2 ^ 32
                      /\ 0 <= original_size e < 2 ^ 64) es.
Proof.
  intros Hpack Hread. cbv zeta.
  induction Hpack as [|p paths Hp _ IH]; [cbn; auto|].
  inversion Hread as [|? ? Hr Hrest]; subst. specialize (IH Hrest).
  destruct IH as (IHl & IHn & IHs & IHf).
  unfold packable in Hp. cbn [flat_map map].
  unfold stored_entry at 1 3 5 7, file_size at 1.
  destruct (fs_read fsys p) as [d|]; [|contradiction].
  destruct Hp as (Hname & Hsize & cd & -> & Hcd).
  cbn [app List.length map name original_size].
  pose proof (size_nonneg d).
  repeat split; try congruence.
  constructor; [cbn [name original_size]; lia | assumption].
Qed.

(** X4.  Entry order is kept from packing to listing, for every codec:
    when all listed paths are read and compressed, the listing of the
    archive [createArchive] wrote prints one line per path, in the order of
    the list, with the path as the name and the file's size as the original
    size. *)
Theorem listing_a_packed_archive_keeps_the_order
        (lz : lzma_api) (zs : zstd_api) (fsys : filesystem)
        (paths : list string) (output_path : string)
        (compression : CompressionType) :
  fs_create fsys output_path = true ->
  Z.of_nat (List.length paths) < 2 ^ 32 ->
  Forall (packable lz zs fsys compression) paths ->
  Forall (fun p => fs_read fsys p <> None) paths ->
  exists w,
    createArchive lz zs fsys paths output_path compression = Ret tt w
    /\ forall (fsys' : filesystem) (archive_path : string),
      fs_read fsys' archive_path = Some (out w) ->
      size (out w) < 2 ^ 63 ->
      exists r,
        listArchiveContents fsys' archive_path = Ret tt r
        /\ map (fun t => (fst (fst t), snd (fst t))) (flat_map reported (shown r))
           = map (fun p => (p, file_size fsys p)) paths.
Proof.
  intros Hcreate Hcount Hpack Hread.
  destruct (stored_readable lz zs fsys compression paths Hpack Hread)
    as (Hlen & Hnames & Hsizes & Hfields).
  eexists. split; [apply createArchive_layout; assumption|].
  intros fsys' archive_path Hfs Hsize. cbn [out] in Hfs, Hsize.
  rewrite Z.mod_small, <- Hlen in Hfs, Hsize by lia.
  set (es := flat_map (stored_entry lz zs fsys compression) paths) in *.
  assert (Hfit : Forall entry_fits es).
  { apply Forall_forall. intros e He.
    rewrite Forall_forall in Hfields. destruct (Hfields e He) as [Hn Ho].
    pose proof (payload_within es e He).
    rewrite size_app in Hsize.
    pose proof (size_nonneg (encode_header MAKAKA_VERSION (enum_value compression)
                                           (Z.of_nat (List.length es)))).
    unfold entry_fits, compressed_size. repeat split; lia. }
  eexists. split.
  - apply (listArchiveContents_well_formed
             fsys' archive_path MAKAKA_VERSION (enum_value compression) es);
      try assumption.
    unfold header_fits, MAKAKA_VERSION. rewrite Hlen.
    destruct compression; cbn; lia.
  - cbn [shown]. 
    change (flat_map reported
                     (Cout_archive archive_path
                        :: header_shown MAKAKA_VERSION (enum_value compression)
                                        (Z.of_nat (List.length es))
                        ++ map listed es))
      with (flat_map reported (map listed es)).
    rewrite reported_listed, map_map. cbn [triple fst snd].
    clearbody es. clear - Hsizes Hnames.
    revert paths Hsizes Hnames.
    induction es as [|e es IH]; intros [|p paths] Hs Hn;
      try discriminate; [reflexivity|].
    cbn [map] in *. injection Hs as Hs1 Hs2. injection Hn as Hn1 Hn2.
    f_equal; [congruence | eapply IH; eassumption].
Qed.

Lemma two_files_packable_lzma :
  Forall (packable Stored.lzma Stored.zstd two_files_disk COMPRESS_LZMA)
         ["a.txt"; "empty.bin"].
Proof.
  constructor; [|constructor; [|constructor]]; unfold packable.
  - change (fs_read two_files_disk "a.txt") with (Some hello).
    split; [reflexivity | split; [reflexivity|]].
    exists (Stored.xz_magic ++ [Byte.x68]). split; reflexivity.
  - change (fs_read two_files_disk "empty.bin") with (Some (@nil byte)).
    split; [reflexivity | split; [reflexivity|]].
    exists []. split; reflexivity.
Qed.

Lemma listing_a_packed_archive_keeps_the_order_witness :
  exists w,
    createArchive Stored.lzma Stored.zstd two_files_disk ["a.txt"; "empty.bin"]
                  "out.makaka" COMPRESS_LZMA = Ret tt w
    /\ forall (fsys' : filesystem) (archive_path : string),
      fs_read fsys' archive_path = Some (out w) ->
      size (out w) < 2 ^ 63 ->
      exists r,
        listArchiveContents fsys' archive_path = Ret tt r
        /\ map (fun t => (fst (fst t), snd (fst t))) (flat_map reported (shown r))
           = [("a.txt", 5); ("empty.bin", 0)].
Proof.
  apply (listing_a_packed_archive_keeps_the_order
           Stored.lzma Stored.zstd two_files_disk ["a.txt"; "empty.bin"]
           "out.makaka" COMPRESS_LZMA).
  - reflexivity.
  - reflexivity.
  - exact two_files_packable_lzma.
  - repeat constructor; discriminate.
Defined.

(** ** Extraction that fails on an entry *)

Lemma extract_entries_until_failure
      (zs : zstd_api) (fsys : filesystem) (codec : Z) (output_dir : string)
      (verbose : bool)
      (es1 : list ArchiveEntry) (ds1 : list (list byte))
      (e : ArchiveEntry) (es2 : list ArchiveEntry) (ex : exn) :
  Forall2 (decodes zs codec) es1 ds1 ->
  entry_fits e ->
  decompress_switch zs codec (payload e) (original_size e) = inl ex ->
  forall (before after : list byte) (t : list event),
    output_accepts fsys output_dir (combine (map name es1) ds1) (filter on_disk t) ->
    times (List.length (es1 ++ e :: es2))
          (extract_entry zs fsys (Some codec) output_dir verbose)
          {| ins := at_ before (encode_entries (es1 ++ e :: es2) ++ after);
             shown := t |}
    = Throw ex
            {| ins := at_ (before ++ encode_entries es1 ++ encode_entry e)
                          (encode_entries es2 ++ after);
               shown := t ++ extracted_all output_dir verbose es1 ds1
                          ++ announced verbose e |}.
Proof.
  intros Hdec Hfit Hfail.
  induction Hdec as [|e1 d1 es1 ds1 [Hf1 Hd1] _ IH]; intros before after t Hacc.
  - cbn [app List.length times encode_entries flat_map extracted_all combine].
    fold (encode_entries es2). rewrite <- app_assoc. unfold bind.
    rewrite extract_entry_run, Hfail by assumption. reflexivity.
  - cbn [map combine output_accepts fst snd] in Hacc.
    destruct Hacc as (Hdir & Hout & Hacc).
    cbn [app List.length times encode_entries flat_map extracted_all combine fst snd].
    fold (encode_entries (es1 ++ e :: es2)). fold (encode_entries es1).
    fold (extracted_all output_dir verbose es1 ds1).
    rewrite <- app_assoc. unfold bind.
    rewrite (extract_entry_at zs fsys codec output_dir verbose e1 d1) by assumption.
    rewrite IH by (rewrite made_extracted; assumption).
    now rewrite <- !app_assoc.
Qed.

(** X5.  [extractArchive] on a ZSTD archive stops at the first entry whose
    payload [decompressZSTD] rejects: the exception leaves the function, the
    files of the entries before it, whose destinations the file system
    took, stay written, and nothing of the entries after it is read. *)
Theorem extractArchive_stops_at_the_first_bad_frame
        (zs : zstd_api) (fsys : filesystem) (path output_dir : string)
        (verbose : bool) (version : Z)
        (es1 : list ArchiveEntry) (ds1 : list (list byte))
        (e : ArchiveEntry) (es2 : list ArchiveEntry) (ex : exn) :
  fs_read fsys path
  = Some (encode_archive version (enum_value COMPRESS_ZSTD) (es1 ++ e :: es2)) ->
  header_fits version (enum_value COMPRESS_ZSTD) (es1 ++ e :: es2) ->
  Forall2 (decodes zs (enum_value COMPRESS_ZSTD)) es1 ds1 ->
  output_accepts fsys output_dir (combine (map name es1) ds1) [] ->
  entry_fits e ->
  decompressZSTD zs (payload e) (original_size e) = inl ex ->
  extractArchive zs fsys path output_dir verbose
  = Throw ex
          {| ins := at_ (encode_header version (enum_value COMPRESS_ZSTD)
                                       (Z.of_nat (List.length (es1 ++ e :: es2)))
                           ++ encode_entries es1 ++ encode_entry e)
                        (encode_entries es2);
             shown := (if verbose
                       then header_shown version (enum_value COMPRESS_ZSTD)
                                         (Z.of_nat (List.length (es1 ++ e :: es2)))
                       else [])
                        ++ extracted_all output_dir verbose es1 ds1
                        ++ announced verbose e |}.
Proof.
  intros Hfs (Hv & Hc & Hn) Hdec Hacc Hfit Hfail.
  unfold extractArchive. rewrite (opened _ _ _ Hfs).
  unfold encode_archive, encode_header in *. rewrite <- !app_assoc in *.
  unfold_proc. cbn [ins at_ failbit].
  fold (at_ [] (le_split 4 MAKAKA_SIGNATURE ++ le_split 2 version
                         ++ le_split 2 (enum_value COMPRESS_ZSTD)
                         ++ le_split 4 (Z.of_nat (List.length (es1 ++ e :: es2)))
                         ++ encode_entries (es1 ++ e :: es2))).
  rewrite read_scalar_at by apply signature_field.
  rewrite Z.eqb_refl. cbn [negb].
  rewrite read_scalar_at by (simpl; lia).
  rewrite read_scalar_at by (simpl; lia).
  destruct verbose; cbn [ins shown];
    (rewrite read_scalar_at by (simpl; lia));
    cbn [ins shown]; rewrite Nat2Z.id;
    rewrite <- (app_nil_r (encode_entries (es1 ++ e :: es2))) at 1;
    rewrite (extract_entries_until_failure
               zs fsys (enum_value COMPRESS_ZSTD) _ _ es1 ds1 e es2 ex Hdec Hfit Hfail)
      by exact Hacc;
    cbn [app]; now rewrite <- ?app_assoc, ?app_nil_r.
Qed.

Lemma zstd_entry_alone_decodes :
  Forall2 (decodes Stored.zstd (enum_value COMPRESS_ZSTD)) [zstd_entry] [hello].
Proof. repeat constructor; try (vm_compute; congruence). Qed.

Lemma extractArchive_stops_at_the_first_bad_frame_witness :
  extractArchive Stored.zstd (Stored.disk [("h.makaka", half_corrupt_archive)])
                 "h.makaka" "out" false
  = Throw (runtime_error "ZSTD decompression failed: Unknown frame descriptor")
          {| ins := at_ (encode_header MAKAKA_VERSION 2 3
                           ++ encode_entries [zstd_entry] ++ encode_entry corrupt_entry)
                        (encode_entries [zstd_entry]);
             shown := [Directories_created "out" "a.txt";
                       File_written "out" "a.txt" hello] |}.
Proof.
  refine (extractArchive_stops_at_the_first_bad_frame
            Stored.zstd (Stored.disk [("h.makaka", half_corrupt_archive)])
            "h.makaka" "out" false MAKAKA_VERSION
            [zstd_entry] [hello] corrupt_entry [zstd_entry]
            (runtime_error "ZSTD decompression failed: Unknown frame descriptor")
            eq_refl _ zstd_entry_alone_decodes _ _ eq_refl).
  - repeat split; vm_compute; congruence.
  - accept_outputs.
  - repeat split; vm_compute; congruence.
Defined.

(** ** Extraction onto a file system that refuses a destination *)

Lemma write_file_refused (fsys : filesystem) (output_dir file_name what : string)
      (file_data : list byte) (i : istream) (t : list event) :
  fs_create_directories fsys (filter on_disk t) output_dir file_name = Some what ->
  write_file fsys output_dir file_name file_data {| ins := i; shown := t |}
  = Throw (filesystem_error what) {| ins := i; shown := t |}.
Proof.
  intros Hdir. unfold write_file. unfold_proc. cbn [ins shown]. now rewrite Hdir.
Qed.

Lemma write_file_unopened (fsys : filesystem) (output_dir file_name : string)
      (file_data : list byte) (i : istream) (t : list event) :
  fs_create_directories fsys (filter on_disk t) output_dir file_name = None ->
  fs_ofstream fsys (filter on_disk t ++ [Directories_created output_dir file_name])
              output_dir file_name file_data = None ->
  write_file fsys output_dir file_name file_data {| ins := i; shown := t |}
  = Ret tt {| ins := i; shown := t ++ [Directories_created output_dir file_name] |}.
Proof.
  intros Hdir Hout. unfold write_file. unfold_proc. cbn [ins shown].
  rewrite Hdir. cbn [ins shown]. rewrite filter_app. cbn [filter on_disk].
  now rewrite Hout.
Qed.

Lemma made_extracted_all (output_dir : string) (verbose : bool)
      (es : list ArchiveEntry) :
  forall (ds : list (list byte)) (t : list event),
    filter on_disk (t ++ extracted_all output_dir verbose es ds)
    = filter on_disk t ++ flat_map (written output_dir) (combine (map name es) ds).
Proof.
  unfold extracted_all.
  induction es as [|e es IH]; intros [|d ds] t;
    cbn [map combine flat_map]; rewrite ?app_nil_r; try reflexivity.
  cbn [fst snd]. rewrite app_assoc, IH, made_extracted.
  now rewrite <- app_assoc.
Qed.

Lemma made_header (verbose : bool) (version codec entry_count : Z) :
  filter on_disk (if verbose then header_shown version codec entry_count else []) = [].
Proof. now destruct verbose. Qed.

(** The loop of [extractArchive] after a well-formed header. *)
Lemma extractArchive_header
      (zs : zstd_api) (fsys : filesystem) (path output_dir : string)
      (verbose : bool) (version codec : Z) (es : list ArchiveEntry) :
  fs_read fsys path = Some (encode_archive version codec es) ->
  header_fits version codec es ->
  extractArchive zs fsys path output_dir verbose
  = times (List.length es) (extract_entry zs fsys (Some codec) output_dir verbose)
          {| ins := at_ (encode_header version codec (Z.of_nat (List.length es)))
                        (encode_entries es ++ []);
             shown := if verbose
                      then header_shown version codec (Z.of_nat (List.length es))
                      else [] |}.
Proof.
  intros Hfs (Hv & Hc & Hn).
  unfold extractArchive. rewrite (opened _ _ _ Hfs).
  unfold encode_archive, encode_header in *. rewrite <- !app_assoc in *.
  unfold_proc. cbn [ins at_ failbit].
  fold (at_ [] (le_split 4 MAKAKA_SIGNATURE ++ le_split 2 version ++ le_split 2 codec
                         ++ le_split 4 (Z.of_nat (List.length es)) ++ encode_entries es)).
  rewrite read_scalar_at by apply signature_field.
  rewrite Z.eqb_refl. cbn [negb].
  rewrite read_scalar_at by (simpl; lia).
  rewrite read_scalar_at by (simpl; lia).
  destruct verbose; cbn [ins shown];
    (rewrite read_scalar_at by (simpl; lia));
    cbn [ins shown]; rewrite Nat2Z.id;
    cbn [app]; now rewrite <- ?app_assoc, ?app_nil_r.
Qed.

(** The entries that go out whole, followed by more of the loop. *)
Lemma extract_entries_then
      (zs : zstd_api) (fsys : filesystem) (codec : Z) (output_dir : string)
      (verbose : bool) (es : list ArchiveEntry) (ds : list (list byte)) (n : nat) :
  Forall2 (decodes zs codec) es ds ->
  forall (before after : list byte) (t : list event),
    output_accepts fsys output_dir (combine (map name es) ds) (filter on_disk t) ->
    times (List.length es + n) (extract_entry zs fsys (Some codec) output_dir verbose)
          {| ins := at_ before (encode_entries es ++ after); shown := t |}
    = times n (extract_entry zs fsys (Some codec) output_dir verbose)
            {| ins := at_ (before ++ encode_entries es) after;
               shown := t ++ extracted_all output_dir verbose es ds |}.
Proof.
  induction 1 as [|e d es ds [Hfit Hdec] _ IH]; intros before after t Hacc.
  - cbn. now rewrite !app_nil_r.
  - cbn [map combine output_accepts fst snd] in Hacc.
    destruct Hacc as (Hdir & Hout & Hacc).
    cbn [List.length Nat.add times encode_entries flat_map combine extracted_all fst snd].
    fold (encode_entries es). fold (extracted_all output_dir verbose es ds).
    rewrite <- app_assoc. unfold bind at 1.
    rewrite (extract_entry_at zs fsys codec output_dir verbose e d) by assumption.
    rewrite IH by (rewrite made_extracted; assumption).
    now rewrite <- !app_assoc.
Qed.

(** X14.  [extractArchive] stops at the first entry for which
    [fs::create_directories] throws: the [filesystem_error] leaves the
    function after the entry was read and decoded, the files of the entries
    before it stay written, and the entries after it are not read. *)
Theorem extractArchive_stops_when_directories_cannot_be_made
        (zs : zstd_api) (fsys : filesystem) (path output_dir : string)
        (verbose : bool) (version codec : Z)
        (es1 : list ArchiveEntry) (ds1 : list (list byte))
        (e : ArchiveEntry) (d : list byte) (es2 : list ArchiveEntry)
        (what : string) :
  fs_read fsys path = Some (encode_archive version codec (es1 ++ e :: es2)) ->
  header_fits version codec (es1 ++ e :: es2) ->
  Forall2 (decodes zs codec) es1 ds1 ->
  output_accepts fsys output_dir (combine (map name es1) ds1) [] ->
  decodes zs codec e d ->
  fs_create_directories fsys
                        (flat_map (written output_dir) (combine (map name es1) ds1))
                        output_dir (name e) = Some what ->
  extractArchive zs fsys path output_dir verbose
  = Throw (filesystem_error what)
          {| ins := at_ (encode_header version codec
                                       (Z.of_nat (List.length (es1 ++ e :: es2)))
                           ++ encode_entries es1 ++ encode_entry e)
                        (encode_entries es2);
             shown := (if verbose
                       then header_shown version codec
                                         (Z.of_nat (List.length (es1 ++ e :: es2)))
                       else [])
                        ++ extracted_all output_dir verbose es1 ds1
                        ++ announced verbose e |}.
Proof.
  intros Hfs Hhdr Hdec1 Hacc [Hfit Hdec] Hdir.
  rewrite (extractArchive_header zs fsys path output_dir verbose version codec
                                 _ Hfs Hhdr).
  rewrite length_app. unfold encode_entries. rewrite flat_map_app.
  fold (encode_entries es1). rewrite <- app_assoc.
  rewrite (extract_entries_then zs fsys codec output_dir verbose es1 ds1 _ Hdec1)
    by (rewrite made_header; exact Hacc).
  cbn [List.length times flat_map]. fold (encode_entries es2).
  rewrite <- app_assoc. unfold bind.
  rewrite extract_entry_run, Hdec by assumption.
  rewrite write_file_refused with (what := what)
    by (rewrite made_announced, made_extracted_all, made_header; exact Hdir).
  now rewrite <- !app_assoc, app_nil_r.
Qed.

Lemma entry_a_decodes : decodes Stored.zstd 0 entry_a hello.
Proof. repeat split; vm_compute; congruence. Qed.

Lemma entry_a_b_decodes :
  decodes Stored.zstd 0 entry_a_b (list_byte_of_string "hi").
Proof. repeat split; vm_compute; congruence. Qed.

Lemma entry_c_decodes : decodes Stored.zstd 0 entry_c [].
Proof. repeat split; vm_compute; congruence. Qed.

Lemma extractArchive_stops_when_directories_cannot_be_made_witness :
  extractArchive Stored.zstd (Stored.disk [("n.makaka", file_then_directory)])
                 "n.makaka" "out" false
  = Throw (filesystem_error "cannot create directories: Not a directory")
          {| ins := at_ (encode_header MAKAKA_VERSION 0 3
                           ++ encode_entries [entry_a] ++ encode_entry entry_a_b)
                        (encode_entries [entry_c]);
             shown := [Directories_created "out" "a"; File_written "out" "a" hello] |}.
Proof.
  assert (Hhdr : header_fits MAKAKA_VERSION 0 ([entry_a] ++ entry_a_b :: [entry_c]))
    by (repeat split; vm_compute; congruence).
  assert (Hacc : output_accepts (Stored.disk [("n.makaka", file_then_directory)]) "out"
                                (combine (map name [entry_a]) [hello]) [])
    by accept_outputs.
  exact (extractArchive_stops_when_directories_cannot_be_made
           Stored.zstd (Stored.disk [("n.makaka", file_then_directory)])
           "n.makaka" "out" false MAKAKA_VERSION 0
           [entry_a] [hello] entry_a_b (list_byte_of_string "hi") [entry_c]
           "cannot create directories: Not a directory"
           eq_refl Hhdr
           (Forall2_cons _ _ entry_a_decodes (Forall2_nil _))
           Hacc entry_a_b_decodes eq_refl).
Defined.

(** X15.  An output file that does not open is passed over in silence:
    the stream is not tested, so [extractArchive] goes on with the next
    entry and returns normally, and the file of that entry is not among
    those written. *)
Theorem extractArchive_goes_on_when_a_file_does_not_open
        (zs : zstd_api) (fsys : filesystem) (path output_dir : string)
        (verbose : bool) (version codec : Z)
        (es1 : list ArchiveEntry) (ds1 : list (list byte))
        (e : ArchiveEntry) (d : list byte)
        (es2 : list ArchiveEntry) (ds2 : list (list byte)) :
  fs_read fsys path = Some (encode_archive version codec (es1 ++ e :: es2)) ->
  header_fits version codec (es1 ++ e :: es2) ->
  Forall2 (decodes zs codec) es1 ds1 ->
  output_accepts fsys output_dir (combine (map name es1) ds1) [] ->
  decodes zs codec e d ->
  fs_create_directories fsys
                        (flat_map (written output_dir) (combine (map name es1) ds1))
                        output_dir (name e) = None ->
  fs_ofstream fsys
              (flat_map (written output_dir) (combine (map name es1) ds1)
                 ++ [Directories_created output_dir (name e)])
              output_dir (name e) d = None ->
  Forall2 (decodes zs codec) es2 ds2 ->
  output_accepts fsys output_dir (combine (map name es2) ds2)
                 (flat_map (written output_dir) (combine (map name es1) ds1)
                    ++ [Directories_created output_dir (name e)]) ->
  extractArchive zs fsys path output_dir verbose
  = Ret tt
        {| ins := at_ (encode_archive version codec (es1 ++ e :: es2)) [];
           shown := (if verbose
                     then header_shown version codec
                                       (Z.of_nat (List.length (es1 ++ e :: es2)))
                     else [])
                      ++ extracted_all output_dir verbose es1 ds1
                      ++ announced verbose e
                      ++ [Directories_created output_dir (name e)]
                      ++ extracted_all output_dir verbose es2 ds2 |}.
Proof.
  intros Hfs Hhdr Hdec1 Hacc1 [Hfit Hdec] Hdir Hout Hdec2 Hacc2.
  rewrite (extractArchive_header zs fsys path output_dir verbose version codec
                                 _ Hfs Hhdr).
  unfold encode_archive.
  rewrite length_app. unfold encode_entries. rewrite flat_map_app.
  fold (encode_entries es1). rewrite <- app_assoc.
  rewrite (extract_entries_then zs fsys codec output_dir verbose es1 ds1 _ Hdec1)
    by (rewrite made_header; exact Hacc1).
  cbn [List.length times flat_map]. fold (encode_entries es2).
  rewrite <- app_assoc. unfold bind.
  rewrite extract_entry_run, Hdec by assumption.
  rewrite write_file_unopened
    by (rewrite made_announced, made_extracted_all, made_header; assumption).
  rewrite (extract_entries_at zs fsys codec output_dir verbose es2 ds2 Hdec2)
    by (rewrite filter_app, made_announced, made_extracted_all, made_header;
        exact Hacc2).
  now rewrite <- !app_assoc.
Qed.

Lemma extractArchive_goes_on_when_a_file_does_not_open_witness :
  extractArchive Stored.zstd (Stored.disk [("d.makaka", directory_then_file)])
                 "d.makaka" "out" false
  = Ret tt
        {| ins := at_ directory_then_file [];
           shown := [Directories_created "out" "a/b";
                     File_written "out" "a/b" (list_byte_of_string "hi");
                     Directories_created "out" "a";
                     Directories_created "out" "c";
                     File_written "out" "c" []] |}.
Proof.
  assert (Hhdr : header_fits MAKAKA_VERSION 0 ([entry_a_b] ++ entry_a :: [entry_c]))
    by (repeat split; vm_compute; congruence).
  assert (Hacc1 : output_accepts (Stored.disk [("d.makaka", directory_then_file)]) "out"
                                 (combine (map name [entry_a_b])
                                          [list_byte_of_string "hi"]) [])
    by accept_outputs.
  assert (Hacc2 : output_accepts
                    (Stored.disk [("d.makaka", directory_then_file)]) "out"
                    (combine (map name [entry_c]) [[]])
                    (flat_map (written "out")
                              (combine (map name [entry_a_b])
                                       [list_byte_of_string "hi"])
                       ++ [Directories_created "out" (name entry_a)]))
    by accept_outputs.
  exact (extractArchive_goes_on_when_a_file_does_not_open
           Stored.zstd (Stored.disk [("d.makaka", directory_then_file)])
           "d.makaka" "out" false MAKAKA_VERSION 0
           [entry_a_b] [list_byte_of_string "hi"] entry_a hello [entry_c] [[]]
           eq_refl Hhdr
           (Forall2_cons _ _ entry_a_b_decodes (Forall2_nil _))
           Hacc1 entry_a_decodes eq_refl eq_refl
           (Forall2_cons _ _ entry_c_decodes (Forall2_nil _))
           Hacc2).
Defined.

(** ** The command line *)

Lemma no_dash_is_no_option (arg : string) :
  no_dash arg = true ->
  String.eqb arg "-o" = false /\ String.eqb arg "-c" = false
  /\ String.eqb arg "-v" = false.
Proof.
  destruct arg as [|c arg]; cbn; [auto|].
  intros H. apply negb_true_iff in H. now rewrite H.
Qed.

Lemma parse_loop_files (before rest : list string) :
  Forall (fun arg => no_dash arg = true) before ->
  forall options,
    parse_loop (before ++ rest) options
    = parse_loop rest
                 {| command := command options; files := files options ++ before;
                    output_path := output_path options;
                    compression := compression options;
                    verbose := verbose options |}.
Proof.
  induction 1 as [|arg before Harg _ IH]; intros options.
  - cbn [app]. rewrite app_nil_r. now destruct options.
  - destruct (no_dash_is_no_option arg Harg) as (Ho & Hc & Hv).
    assert (Hstep : parse_loop ((arg :: before) ++ rest) options
                    = parse_loop (before ++ rest) (flag_or_file arg options)).
    { cbn [app parse_loop]. rewrite Ho, Hc. now destruct (before ++ rest). }
    rewrite Hstep, IH. unfold flag_or_file. rewrite Hv, Harg.
    cbn [command files output_path compression verbose].
    now rewrite <- app_assoc.
Qed.

(** X6.  Arguments that do not start with a dash are the files, in their
    order: with no option given, the compression is ZSTD, the output path
    is empty and the run is not verbose. *)
Theorem parseArguments_plain_arguments_are_the_files
        (program cmd : string) (args : list string) :
  Forall (fun arg => no_dash arg = true) args ->
  parseArguments (program :: cmd :: args)
  = inr {| command := cmd; files := args; output_path := "";
           compression := COMPRESS_ZSTD; verbose := false |}.
Proof.
  intros Hargs. unfold parseArguments.
  rewrite <- (app_nil_r args) at 1. now rewrite parse_loop_files.
Qed.

Lemma parseArguments_plain_arguments_are_the_files_witness :
  parseArguments ["makakatool"; "pack"; "a.txt"; ""; "b.txt"]
  = inr {| command := "pack"; files := ["a.txt"; ""; "b.txt"]; output_path := "";
           compression := COMPRESS_ZSTD; verbose := false |}.
Proof.
  apply (parseArguments_plain_arguments_are_the_files
           "makakatool" "pack" ["a.txt"; ""; "b.txt"]).
  repeat constructor.
Defined.

Lemma parse_loop_keeps_a_codec (n : nat) :
  forall (args : list string) (options parsed : ProgramOptions),
    (List.length args <= n)%nat ->
    compression options <> COMPRESS_NONE ->
    parse_loop args options = inr parsed ->
    compression parsed <> COMPRESS_NONE.
Proof.
  induction n as [|n IH]; intros args options parsed Hlen Hc Hparse.
  - destruct args; [|cbn in Hlen; lia]. cbn in Hparse. now injection Hparse as <-.
  - destruct args as [|arg rest]; [cbn in Hparse; now injection Hparse as <-|].
    cbn [List.length] in Hlen.
    assert (Hflag : compression (flag_or_file arg options) <> COMPRESS_NONE).
    { unfold flag_or_file. destruct (String.eqb arg "-v"); [exact Hc|].
      destruct (no_dash arg); exact Hc. }
    cbn [parse_loop] in Hparse.
    destruct rest as [|next rest'].
    + eapply (IH [] (flag_or_file arg options)); [cbn; lia | exact Hflag | exact Hparse].
    + cbn [List.length] in Hlen.
      destruct (String.eqb arg "-o").
      * eapply (IH rest'); [lia | | exact Hparse]. exact Hc.
      * destruct (String.eqb arg "-c").
        -- destruct (String.eqb next "lzma").
           ++ eapply (IH rest'); [lia | | exact Hparse]. cbn. discriminate.
           ++ destruct (String.eqb next "zstd"); [|discriminate Hparse].
              eapply (IH rest'); [lia | | exact Hparse]. cbn. discriminate.
        -- eapply (IH (next :: rest')); [cbn [List.length]; lia | exact Hflag | exact Hparse].
Qed.

(** X7.  No command line selects an uncompressed archive: whatever the
    arguments, options that [parseArguments] returns ask for LZMA or ZSTD. *)
Theorem parseArguments_never_selects_none (argv : list string) :
  match parseArguments argv with
  | inr options =>
      compression options = COMPRESS_LZMA \/ compression options = COMPRESS_ZSTD
  | inl _ => True
  end.
Proof.
  destruct (parseArguments argv) as [e|options] eqn:Hparse; [trivial|].
  assert (H : compression options <> COMPRESS_NONE).
  { unfold parseArguments in Hparse.
    destruct argv as [|program [|cmd args]]; try discriminate Hparse.
    eapply (parse_loop_keeps_a_codec (List.length args) args);
      [lia | | exact Hparse]. cbn. discriminate. }
  destruct (compression options); [contradiction | now left | now right].
Qed.

(** X8.  A [-c] whose value is neither lzma nor zstd makes [parseArguments]
    throw "Unknown compression method", whatever follows it, when only
    file arguments precede it. *)
Theorem parseArguments_rejects_an_unknown_method
        (program cmd method : string) (before after : list string) :
  Forall (fun arg => no_dash arg = true) before ->
  String.eqb method "lzma" = false ->
  String.eqb method "zstd" = false ->
  parseArguments (program :: cmd :: before ++ "-c" :: method :: after)
  = inl (runtime_error "Unknown compression method").
Proof.
  intros Hbefore Hl Hz. unfold parseArguments.
  rewrite parse_loop_files by assumption.
  cbn [parse_loop String.eqb Ascii.eqb Bool.eqb]. now rewrite Hl, Hz.
Qed.

Lemma parseArguments_rejects_an_unknown_method_witness :
  parseArguments ["makakatool"; "pack"; "a.txt"; "-c"; "none"; "-o"; "x.makaka"]
  = inl (runtime_error "Unknown compression method").
Proof.
  apply (parseArguments_rejects_an_unknown_method
           "makakatool" "pack" "none" ["a.txt"] ["-o"; "x.makaka"]).
  - repeat constructor.
  - reflexivity.
  - reflexivity.
Defined.

(** ** Runs of the program *)

Lemma parse_pack (program output : string) (paths : list string) :
  Forall (fun arg => no_dash arg = true) paths ->
  parseArguments (program :: "pack" :: paths ++ ["-o"; output])
  = inr {| command := "pack"; files := paths; output_path := output;
           compression := COMPRESS_ZSTD; verbose := false |}.
Proof.
  intros Hpaths. unfold parseArguments.
  rewrite parse_loop_files by assumption. reflexivity.
Qed.

Lemma parse_one_file (program cmd path : string) (rest : list string) :
  no_dash path = true ->
  parseArguments (program :: cmd :: path :: rest)
  = parse_loop rest {| command := cmd; files := [path]; output_path := "";
                       compression := COMPRESS_ZSTD; verbose := false |}.
Proof.
  intros Hpath. unfold parseArguments.
  now rewrite (parse_loop_files [path] rest) by (constructor; [assumption | constructor]).
Qed.

Lemma nothing_skipped (fsys : filesystem) (paths : list string)
      (contents : list (list byte)) :
  Forall2 (holds fsys) paths contents -> flat_map (skipped fsys) paths = [].
Proof.
  induction 1 as [|p d paths contents (Hread & _) _ IH]; [reflexivity|].
  cbn [flat_map]. unfold skipped at 1. now rewrite Hread, IH.
Qed.

(** X9.  Packing from the command line and unpacking the result gives the
    files back: with the default codec (ZSTD), [main] with [pack] exits
    with 0 after writing the archive, and [main] with [unpack] on that
    archive exits with 0 after writing every packed file, in order, with
    the bytes it had, when the file system takes every destination.  The
    archive is not one of the packed paths.  An empty [-o] value stands for
    [archive.makaka] when packing and for the current directory when
    unpacking. *)
Theorem main_pack_then_unpack
        (lz : lzma_api) (zs : zstd_api) (fsys : filesystem)
        (program output dir : string)
        (paths : list string) (contents : list (list byte)) :
  zstd_sound zs ->
  paths <> [] ->
  Forall (fun arg => no_dash arg = true) paths ->
  Z.of_nat (List.length paths) < 2 ^ 32 ->
  Forall2 (holds fsys) paths contents ->
  let archive_path := if String.eqb output "" then "archive.makaka" else output in
  let output_dir := if String.eqb dir "" then "." else dir in
  fs_create fsys archive_path = true ->
  ~ In archive_path paths ->
  no_dash archive_path = true ->
  exists bytes,
    main lz zs fsys (program :: "pack" :: paths ++ ["-o"; output])
    = Exited 0 [Cout_created archive_path] (Some (archive_path, bytes))
    /\ forall fsys' : filesystem,
      fs_read fsys' archive_path = Some bytes ->
      output_accepts fsys' output_dir (combine paths contents) [] ->
      main lz zs fsys' [program; "unpack"; archive_path; "-o"; dir]
      = Exited 0
               (map Effect (flat_map (written output_dir) (combine paths contents))
                    ++ [Cout_extracted_to output_dir])
               None.
Proof.
  intros Hsound Hne Hplain Hcount Hheld archive_path output_dir Hcreate _ Hdash.
  destruct (stored_files lz zs Hsound fsys COMPRESS_ZSTD output_dir paths contents
                         (or_intror eq_refl) Hheld)
    as (Hpack & Hdec & Hlen & Hshown & Hnames).
  eexists. split.
  - unfold main. rewrite parse_pack by assumption.
    cbn [command files output_path compression verbose String.eqb Ascii.eqb Bool.eqb].
    fold archive_path.
    destruct paths as [|p paths]; [contradiction|].
    rewrite (createArchive_layout lz zs fsys (p :: paths) archive_path COMPRESS_ZSTD)
      by assumption.
    cbn [warned out]. rewrite (nothing_skipped fsys _ _ Hheld). reflexivity.
  - intros fsys' Hread Hacc.
    rewrite Z.mod_small, <- Hlen in Hread by lia.
    unfold main. rewrite parse_one_file by assumption.
    cbn [parse_loop command files output_path compression verbose
                    String.eqb Ascii.eqb Bool.eqb].
    fold output_dir.
    rewrite (extractArchive_well_formed
               zs fsys' archive_path output_dir false MAKAKA_VERSION
               (enum_value COMPRESS_ZSTD) _ contents Hread);
      [ | unfold header_fits, MAKAKA_VERSION; rewrite Hlen; cbn; lia | exact Hdec
        | now rewrite Hnames ].
    cbn [shown app]. rewrite Hshown. reflexivity.
Qed.

Lemma main_pack_then_unpack_witness :
  exists bytes,
    main Stored.lzma Stored.zstd two_files_disk
         ["makakatool"; "pack"; "a.txt"; "empty.bin"; "-o"; ""]
    = Exited 0 [Cout_created "archive.makaka"] (Some ("archive.makaka", bytes))
    /\ main Stored.lzma Stored.zstd (Stored.disk [("archive.makaka", bytes)])
            ["makakatool"; "unpack"; "archive.makaka"; "-o"; "restored"]
       = Exited 0
                [Effect (Directories_created "restored" "a.txt");
                 Effect (File_written "restored" "a.txt" hello);
                 Effect (Directories_created "restored" "empty.bin");
                 Effect (File_written "restored" "empty.bin" []);
                 Cout_extracted_to "restored"]
                None.
Proof.
  assert (Hsome : ["a.txt"; "empty.bin"] <> []) by discriminate.
  assert (Hplain : Forall (fun arg => no_dash arg = true) ["a.txt"; "empty.bin"])
    by (repeat constructor).
  assert (Hfresh : ~ In "archive.makaka" ["a.txt"; "empty.bin"])
    by (intros [H | [H | []]]; discriminate H).
  destruct (main_pack_then_unpack
              Stored.lzma Stored.zstd two_files_disk "makakatool" "" "restored"
              ["a.txt"; "empty.bin"] [hello; []]
              stored_zstd_sound Hsome Hplain eq_refl two_files_held
              eq_refl Hfresh eq_refl) as (bytes & Hpack & Hunpack).
  exists bytes. split; [exact Hpack|].
  apply (Hunpack (Stored.disk [("archive.makaka", bytes)])).
  - reflexivity.
  - accept_outputs.
Defined.

(** X10.  Every archive file a run of the program leaves behind, complete
    or cut short by an exception, starts with a header whose codec is LZMA
    or ZSTD: the command line cannot produce an uncompressed archive. *)
Theorem main_archives_are_compressed
        (lz : lzma_api) (zs : zstd_api) (fsys : filesystem) (argv : list string)
        (code : Z) (printed : list terminal) (path : string) (bytes : list byte) :
  main lz zs fsys argv = Exited code printed (Some (path, bytes)) ->
  exists codec entry_count more,
    (codec = COMPRESS_LZMA \/ codec = COMPRESS_ZSTD)
    /\ bytes = encode_header MAKAKA_VERSION (enum_value codec) entry_count ++ more.
Proof.
  unfold main. destruct (parseArguments argv) as [e|options] eqn:Hparse; [discriminate|].
  assert (Hcodec : compression options <> COMPRESS_NONE).
  { unfold parseArguments in Hparse.
    destruct argv as [|program [|cmd args]]; try discriminate Hparse.
    eapply (parse_loop_keeps_a_codec (List.length args) args);
      [lia | | exact Hparse]. cbn. discriminate. }
  destruct (String.eqb (command options) "pack").
  - destruct (files options) as [|p paths]; [discriminate|].
    set (output := if String.eqb (output_path options) "" then "archive.makaka"
                   else output_path options).
    unfold createArchive.
    destruct (fs_create fsys output) eqn:Hcreate; [|discriminate].
    cbv beta iota zeta delta [bind ostream_write out warned].
    match goal with
    | |- context [for_each ?fs ?body ?s] =>
        pose proof (pack_files_appended lz zs fsys (compression options) fs s) as H
    end.
    match type of H with
    | appended _ ?run => destruct run as [a w|e w|]
    end; [| |contradiction];
      destruct H as [more Hout]; cbn [out] in Hout;
      intros Heq; injection Heq as _ _ _ <-;
      exists (compression options), (Z.of_nat (List.length (p :: paths)) mod 2 ^ 32), more;
      (split; [destruct (compression options); [contradiction | now left | now right]
              | exact Hout]).
  - destruct (String.eqb (command options) "unpack").
    + destruct (files options); [discriminate|].
      destruct (extractArchive _ _ _ _ _); discriminate.
    + destruct (String.eqb (command options) "list"); [|discriminate].
      destruct (files options); [discriminate|].
      destruct (listArchiveContents _ _); discriminate.
Qed.

Lemma main_archives_are_compressed_witness :
  exists codec entry_count more,
    (codec = COMPRESS_LZMA \/ codec = COMPRESS_ZSTD)
    /\ encode_header MAKAKA_VERSION 2 1
       = encode_header MAKAKA_VERSION (enum_value codec) entry_count ++ more.
Proof.
  apply (main_archives_are_compressed
           Stored.lzma cramped_zstd two_files_disk ["makakatool"; "pack"; "a.txt"]
           1 [Cerr_error "ZSTD compression failed: Destination buffer is too small"]
           "archive.makaka" (encode_header MAKAKA_VERSION 2 1)).
  reflexivity.
Defined.

Lemma not_an_archive
      (zs : zstd_api) (fsys : filesystem) (path output_dir : string)
      (verbose : bool) (bytes : list byte) :
  fs_read fsys path = Some bytes ->
  (4 <= List.length bytes)%nat ->
  firstn 4 bytes <> le_split 4 MAKAKA_SIGNATURE ->
  (exists r, extractArchive zs fsys path output_dir verbose = Throw FormatError r
             /\ shown r = [])
  /\ (exists r, listArchiveContents fsys path = Throw FormatError r /\ shown r = []).
Proof.
  intros Hfs Hlen Hsig.
  assert (Hfour : List.length (firstn 4 bytes) = 4%nat)
    by (rewrite length_firstn; lia).
  assert (Hne : (le_combine (firstn 4 bytes) =? MAKAKA_SIGNATURE) = false).
  { apply Z.eqb_neq. intros Heq. apply Hsig.
    rewrite <- (split_le_combine (firstn 4 bytes)), Hfour. now rewrite Heq. }
  assert (Hst : read_scalar 4 {| ins := at_ [] bytes; shown := [] |}
                = Ret (Some (le_combine (firstn 4 bytes)))
                      {| ins := at_ (firstn 4 bytes) (skipn 4 bytes); shown := [] |}).
  { rewrite <- (firstn_skipn 4 bytes) at 1.
    now rewrite read_scalar_bytes by assumption. }
  unfold extractArchive, listArchiveContents. rewrite (opened _ _ _ Hfs).
  split; eexists;
    (erewrite bind_run by reflexivity);
    cbn [at_ failbit ins]; fold (at_ [] bytes);
    (erewrite bind_run by apply Hst);
    (erewrite bind_run by reflexivity);
    rewrite Hne; split; reflexivity.
Qed.

(** X11.  [unpack] and [list] on a file that does not start with the
    signature print "Invalid file format" as the error and exit with 1;
    nothing else is printed and no file is written. *)
Theorem main_refuses_a_file_that_is_no_archive
        (lz : lzma_api) (zs : zstd_api) (fsys : filesystem)
        (program path : string) (bytes : list byte) :
  no_dash path = true ->
  fs_read fsys path = Some bytes ->
  (4 <= List.length bytes)%nat ->
  firstn 4 bytes <> le_split 4 MAKAKA_SIGNATURE ->
  main lz zs fsys [program; "unpack"; path]
  = Exited 1 [Cerr_error "Invalid file format"] None
  /\ main lz zs fsys [program; "list"; path]
     = Exited 1 [Cerr_error "Invalid file format"] None.
Proof.
  intros Hdash Hfs Hlen Hsig.
  destruct (not_an_archive zs fsys path "." false bytes Hfs Hlen Hsig)
    as [(r1 & He & Hs1) (r2 & Hl & Hs2)].
  unfold main. rewrite !parse_one_file by assumption.
  cbn [parse_loop command files output_path compression verbose
                  String.eqb Ascii.eqb Bool.eqb].
  rewrite He, Hl, Hs1, Hs2. split; reflexivity.
Qed.

Lemma main_refuses_a_file_that_is_no_archive_witness :
  main Stored.lzma Stored.zstd (Stored.disk [("f.zip", zip_bytes)])
       ["makakatool"; "unpack"; "f.zip"]
  = Exited 1 [Cerr_error "Invalid file format"] None
  /\ main Stored.lzma Stored.zstd (Stored.disk [("f.zip", zip_bytes)])
          ["makakatool"; "list"; "f.zip"]
     = Exited 1 [Cerr_error "Invalid file format"] None.
Proof.
  apply (main_refuses_a_file_that_is_no_archive
           Stored.lzma Stored.zstd (Stored.disk [("f.zip", zip_bytes)])
           "makakatool" "f.zip" zip_bytes).
  - reflexivity.
  - reflexivity.
  - vm_compute. lia.
  - vm_compute. discriminate.
Defined.

(** X12.  [unpack] and [list] on a path that cannot be opened print "Failed
    to open archive" as the error and exit with 1 without any other
    effect. *)
Theorem main_reports_a_missing_archive
        (lz : lzma_api) (zs : zstd_api) (fsys : filesystem)
        (program path : string) :
  no_dash path = true ->
  fs_read fsys path = None ->
  main lz zs fsys [program; "unpack"; path]
  = Exited 1 [Cerr_error "Failed to open archive"] None
  /\ main lz zs fsys [program; "list"; path]
     = Exited 1 [Cerr_error "Failed to open archive"] None.
Proof.
  intros Hdash Hfs. unfold main. rewrite !parse_one_file by assumption.
  cbn [parse_loop command files output_path compression verbose
                  String.eqb Ascii.eqb Bool.eqb].
  unfold extractArchive, listArchiveContents, ifstream_open. rewrite Hfs.
  split; reflexivity.
Qed.

Lemma main_reports_a_missing_archive_witness :
  main Stored.lzma Stored.zstd one_file_disk ["makakatool"; "unpack"; "gone.makaka"]
  = Exited 1 [Cerr_error "Failed to open archive"] None
  /\ main Stored.lzma Stored.zstd one_file_disk ["makakatool"; "list"; "gone.makaka"]
     = Exited 1 [Cerr_error "Failed to open archive"] None.
Proof.
  apply (main_reports_a_missing_archive
           Stored.lzma Stored.zstd one_file_disk "makakatool" "gone.makaka");
    reflexivity.
Defined.

(** ** What a listing shows *)

Lemma shows_only_bind {A B : Type} (P : event -> Prop)
      (c : M reader A) (k : A -> M reader B) :
  shows_only P c -> (forall a, shows_only P (k a)) -> shows_only P (bind c k).
Proof.
  intros Hc Hk s. unfold bind. specialize (Hc s).
  destruct (c s) as [a s1|e s1|]; [|exact Hc|exact I].
  destruct Hc as (m1 & H1 & HP1). specialize (Hk a s1).
  destruct (k a s1) as [b s2|e s2|]; [| |exact I];
    destruct Hk as (m2 & H2 & HP2); exists (m1 ++ m2);
    (split; [now rewrite H2, H1, app_assoc | now apply Forall_app]).
Qed.

Lemma shows_only_quiet {A : Type} (P : event -> Prop) (c : M reader A) :
  (forall s, match c s with
             | Ret _ s' | Throw _ s' => shown s' = shown s
             | Undef => True
             end) ->
  shows_only P c.
Proof.
  intros H s. specialize (H s).
  destruct (c s); try exact I; exists []; rewrite app_nil_r; auto.
Qed.

Lemma shows_only_read_scalar (P : event -> Prop) (w : nat) :
  shows_only P (read_scalar w).
Proof.
  apply shows_only_quiet. intros s. unfold read_scalar.
  now destruct (failbit (ins s)).
Qed.

Lemma shows_only_istream_read (P : event -> Prop) (buf : list byte) (n : Z) :
  shows_only P (istream_read buf n).
Proof.
  apply shows_only_quiet. intros s. unfold istream_read.
  now destruct (failbit (ins s)).
Qed.

Lemma shows_only_seekg (P : event -> Prop) (off : Z) :
  shows_only P (istream_seekg_cur off).
Proof.
  apply shows_only_quiet. intros s. unfold istream_seekg_cur.
  destruct (failbit (ins s)); [reflexivity|].
  now destruct ((0 <=? _) && _).
Qed.

Lemma shows_only_use {A : Type} (P : event -> Prop) (v : option A) :
  shows_only P (use v : M reader A).
Proof. apply shows_only_quiet. intros s. now destruct v. Qed.

Lemma shows_only_throw {A : Type} (P : event -> Prop) (e : exn) :
  shows_only P (throw e : M reader A).
Proof. apply shows_only_quiet. reflexivity. Qed.

Lemma shows_only_in_failed (P : event -> Prop) : shows_only P in_failed.
Proof. apply shows_only_quiet. reflexivity. Qed.

Lemma shows_only_show (P : event -> Prop) (ev : event) :
  P ev -> shows_only P (show ev).
Proof. intros H s. exists [ev]. split; [reflexivity | now constructor]. Qed.

Lemma shows_only_times (P : event -> Prop) (n : nat) (body : M reader unit) :
  shows_only P body -> shows_only P (times n body).
Proof.
  intros Hb. induction n as [|n IH]; cbn [times].
  - apply shows_only_quiet. reflexivity.
  - apply shows_only_bind; auto.
Qed.

Create HintDb shows.

#[local] Hint Resolve shows_only_read_scalar shows_only_istream_read
  shows_only_seekg shows_only_use shows_only_throw shows_only_in_failed
  shows_only_times : shows.

Ltac shows_step :=
  first [ apply shows_only_bind; [solve [auto with shows] | intros]
        | solve [auto with shows]
        | apply shows_only_bind; [apply shows_only_show; exact I | intros]
        | apply shows_only_show; exact I ].

(** X13.  A listing only prints: whatever bytes the file holds, well
    formed or not, [listArchiveContents] writes no file and prints nothing
    but the lines of a listing, whether it returns or throws. *)
Theorem listArchiveContents_only_prints
        (fsys : filesystem) (archive_path : string) :
  match listArchiveContents fsys archive_path with
  | Ret _ r | Throw _ r => Forall is_listing_line (shown r)
  | Undef => True
  end.
Proof.
  assert (H : shows_only is_listing_line
                (failed <- in_failed;;
                 if failed then throw (runtime_error "Failed to open archive")
                 else
                   signature <- read_scalar 4;;
                   sig <- use signature;;
                   if negb (sig =? MAKAKA_SIGNATURE)
                   then throw (runtime_error "Invalid file format")
                   else
                     version <- read_scalar 2;;
                     compression <- read_scalar 2;;
                     show (Cout_archive archive_path);;
                     v <- use version;;
                     show (Cout_version (Z.shiftr v 8) (Z.land v 0xFF));;
                     c <- use compression;;
                     show (Cout_compression (compression_label c));;
                     file_count <- read_scalar 4;;
                     k <- use file_count;;
                     show (Cout_files k);;
                     times (Z.to_nat k) list_entry)).
  { apply shows_only_bind; [auto with shows | intros failed].
    destruct failed; [auto with shows|].
    apply shows_only_bind; [auto with shows | intros signature].
    apply shows_only_bind; [auto with shows | intros sig].
    destruct (negb _); [auto with shows|].
    do 10 shows_step.
    apply shows_only_times. unfold list_entry. repeat shows_step. }
  specialize (H {| ins := ifstream_open fsys archive_path; shown := [] |}).
  unfold listArchiveContents.
  match type of H with
  | match ?run with _ => _ end => destruct run as [a r|e r|]
  end; [| |exact I];
    destruct H as (more & Hshown & HP); cbn [shown app] in Hshown;
    now rewrite Hshown.
Qed.
